(** * gpol.utils.solution: the [Solution] class

    A shallow embedding of [gpol/utils/solution.py] and the properties of
    its constructor, of [_get_copy] and of [__len__].

    Python objects live in a store and are handled through references, so
    that aliasing between a solution and its copy can be stated. The class
    attribute [Solution.id_] is a field of the program state. Exceptions are
    outcomes of a computation; the state reached when an exception escapes is
    kept, as Python keeps it. *)

From stdpp Require Import base gmap strings list list_numbers sorting.
From Stdlib Require Import ZArith Lia.

Local Open Scope Z_scope.

(** ** Values and objects *)

(** A reference into the object store. *)
Abbreviation loc := nat (only parsing).

(** An element of a tensor: an integer, or the bit pattern of a float.
    [clone] copies elements verbatim, so the payload is never inspected. *)
Abbreviation scalar := Z (only parsing).

(** Python values a solution can hold. Immutable values are carried
    directly, mutable objects through a reference. *)
Inductive value :=
| VNone
| VBool (b : bool)
| VInt (z : Z)
| VFloat (bits : Z)
| VRef (l : loc).

#[global] Instance value_eq_dec : EqDecision value.
Proof. solve_decision. Defined.

(** A [torch.Tensor]: element type, shape, and the storage it reads and
    writes. Several tensors may share one storage (views, [detach]). *)
Record tensor := Tensor {
  t_dtype : string;
  t_shape : list nat;
  t_storage : nat
}.

(** Objects of the store: a tensor, a [list], or an instance of [Solution]
    with its instance dictionary. *)
Inductive obj :=
| OTensor (t : tensor)
| OList (items : list value)
| OSolution (attrs : gmap string value).

(** The program state: the object store, the tensor storages, and the
    class attribute [Solution.id_]. *)
Record state := State {
  heap : list obj;
  storages : list (list scalar);
  id_ : Z
}.

(** [id_ = 0] in the class body; nothing is allocated yet. *)
Definition initial : state := State [] [] 0.

(** ** Computations *)

(** An exception, by the name of its class. *)
Abbreviation exn := string (only parsing).

(** [Stuck] is a reference outside the store, which Python cannot build. *)
Inductive outcome (A : Type) :=
| Ok (a : A)
| Raise (e : exn)
| Stuck.
Arguments Ok {A} a.
Arguments Raise {A} e.
Arguments Stuck {A}.

Definition M (A : Type) : Type := state → outcome A * state.

#[global] Instance M_ret : MRet M := λ A a σ, (Ok a, σ).

#[global] Instance M_bind : MBind M := λ A B f m σ,
  match m σ with
  | (Ok a, σ1) => f a σ1
  | (Raise e, σ1) => (Raise e, σ1)
  | (Stuck, σ1) => (Stuck, σ1)
  end.

Definition raise {A} (e : exn) : M A := λ σ, (Raise e, σ).

(** ** The store *)

Definition alloc (o : obj) : M loc := λ σ,
  (Ok (length (heap σ)), State (heap σ ++ [o]) (storages σ) (id_ σ)).

Definition deref (l : loc) : M obj := λ σ,
  match heap σ !! l with
  | Some o => (Ok o, σ)
  | None => (Stuck, σ)
  end.

Definition store (l : loc) (o : obj) : M unit := λ σ,
  (Ok (), State (<[l := o]> (heap σ)) (storages σ) (id_ σ)).

Definition alloc_storage (d : list scalar) : M nat := λ σ,
  (Ok (length (storages σ)), State (heap σ) (storages σ ++ [d]) (id_ σ)).

Definition read_storage (s : nat) : M (list scalar) := λ σ,
  match storages σ !! s with
  | Some d => (Ok d, σ)
  | None => (Stuck, σ)
  end.

Definition write_storage (s : nat) (d : list scalar) : M unit := λ σ,
  (Ok (), State (heap σ) (<[s := d]> (storages σ)) (id_ σ)).

(** [Solution.id_] read and written. *)
Definition get_id_ : M Z := λ σ, (Ok (id_ σ), σ).
Definition set_id_ (i : Z) : M unit := λ σ,
  (Ok (), State (heap σ) (storages σ) i).

(** ** Attribute access

    None of the names the methods read ([repr_], [valid], [fit],
    [test_fit], [val_fit]) is a class attribute, so the lookup is that of
    the instance dictionary. Lists and tensors have none of them. *)

Definition hasattr (l : loc) (a : string) : M bool :=
  o ← deref l;
  match o with
  | OSolution attrs => mret (bool_decide (is_Some (attrs !! a)))
  | _ => mret false
  end.

Definition getattr (l : loc) (a : string) : M value :=
  o ← deref l;
  match o with
  | OSolution attrs =>
      match attrs !! a with
      | Some v => mret v
      | None => raise "AttributeError"
      end
  | _ => raise "AttributeError"
  end.

Definition setattr (l : loc) (a : string) (v : value) : M unit :=
  o ← deref l;
  match o with
  | OSolution attrs => store l (OSolution (<[a := v]> attrs))
  | _ => raise "AttributeError"
  end.

(** ** Library operations the class calls *)

(** [type(v) is torch.Tensor]. *)
Definition type_is_Tensor (v : value) : M bool :=
  match v with
  | VRef l =>
      o ← deref l;
      match o with
      | OTensor _ => mret true
      | _ => mret false
      end
  | _ => mret false
  end.

(** [torch.Tensor.clone]: a new tensor of the same shape and element type
    over a new storage holding the same elements. *)
Definition Tensor_clone (t : tensor) : M loc :=
  d ← read_storage (t_storage t);
  s ← alloc_storage d;
  alloc (OTensor (Tensor (t_dtype t) (t_shape t) s)).

(** [v.clone()]: only tensors have the method. *)
Definition call_clone (v : value) : M value :=
  match v with
  | VRef l =>
      o ← deref l;
      match o with
      | OTensor t => l' ← Tensor_clone t; mret (VRef l')
      | _ => raise "AttributeError"
      end
  | _ => raise "AttributeError"
  end.

(** [v.copy()]: [list.copy] builds a new list of the same items, which
    are references and are not copied themselves. Tensors, solutions and
    the immutable values have no [copy] method. *)
Definition call_copy (v : value) : M value :=
  match v with
  | VRef l =>
      o ← deref l;
      match o with
      | OList items => l' ← alloc (OList items); mret (VRef l')
      | _ => raise "AttributeError"
      end
  | _ => raise "AttributeError"
  end.

(** ** The class *)

(** [Solution(repr_)]: a new instance, then the body of [__init__]. *)
Definition Solution (repr_ : value) : M loc :=
  self ← alloc (OSolution ∅);
  i ← get_id_;
  setattr self "_id" (VInt i);;
  i ← get_id_;
  set_id_ (i + 1);;
  setattr self "repr_" repr_;;
  setattr self "valid" VNone;;
  setattr self "fit" VNone;;
  mret self.

Definition _get_copy (self : loc) : M loc :=
  r ← getattr self "repr_";
  is_t ← type_is_Tensor r;
  sol_copy ←
    (if is_t : bool then
       r ← getattr self "repr_"; c ← call_clone r; Solution c
     else
       r ← getattr self "repr_"; c ← call_copy r; Solution c);
  hv ← hasattr self "valid";
  (if hv : bool then
     v ← getattr self "valid"; setattr sol_copy "valid" v
   else mret ());;
  hf ← hasattr self "fit";
  (if hf : bool then
     f ← getattr self "fit"; c ← call_clone f; setattr sol_copy "fit" c
   else mret ());;
  ht ← hasattr self "test_fit";
  (if ht : bool then
     f ← getattr self "val_fit"; c ← call_clone f;
     setattr sol_copy "val_fit" c
   else mret ());;
  mret sol_copy.

(** [len(v)]. A list answers with its length, a tensor with the size of its
    first dimension and with [TypeError] when it has none, a solution through
    its [__len__]. [depth] is the number of Python frames left before
    [RecursionError]. *)
Fixpoint py_len (depth : nat) (v : value) : M Z :=
  match v with
  | VRef l =>
      o ← deref l;
      match o with
      | OList items => mret (Z.of_nat (length items))
      | OTensor t =>
          match t_shape t with
          | d :: _ => mret (Z.of_nat d)
          | [] => raise "TypeError"
          end
      | OSolution _ =>
          match depth with
          | O => raise "RecursionError"
          | S depth' => r ← getattr l "repr_"; py_len depth' r
          end
      end
  | _ => raise "TypeError"
  end.

Definition __len__ (depth : nat) (self : loc) : M Z :=
  r ← getattr self "repr_"; py_len depth r.

(** Python's default recursion limit. *)
Definition recursion_limit : nat := 1000.

(** ** What the rest of the library does with solutions

    Search and evaluation code builds representations, writes [valid] and
    the fitness attributes, and mutates lists and tensors in place. *)

(** [list(items)] *)
Definition new_list (items : list value) : M loc := alloc (OList items).

(** [torch.tensor(data)] reshaped to [shape]. *)
Definition new_tensor (dtype : string) (shape : list nat) (d : list scalar)
  : M loc :=
  s ← alloc_storage d;
  alloc (OTensor (Tensor dtype shape s)).

(** [torch.Tensor.view(t, shape)]: a second tensor over the storage of
    [t]. *)
Definition Tensor_view (l : loc) (shape : list nat) : M loc :=
  o ← deref l;
  match o with
  | OTensor t => alloc (OTensor (Tensor (t_dtype t) shape (t_storage t)))
  | _ => raise "TypeError"
  end.

(** [torch.Tensor.view(t, -1)[i] = x] for [0 <= i]: a write into the
    storage of [t]. *)
Definition Tensor_setitem (l : loc) (i : nat) (x : scalar) : M unit :=
  o ← deref l;
  match o with
  | OTensor t =>
      d ← read_storage (t_storage t);
      if decide (i < length d)%nat
      then write_storage (t_storage t) (<[i := x]> d)
      else raise "IndexError"
  | _ => raise "TypeError"
  end.

(** [list.__setitem__(l, i, v)] for [0 <= i]. *)
Definition list_setitem (l : loc) (i : nat) (v : value) : M unit :=
  o ← deref l;
  match o with
  | OList items =>
      if decide (i < length items)%nat
      then store l (OList (<[i := v]> items))
      else raise "IndexError"
  | _ => raise "TypeError"
  end.

(** The items of the list at [l]. *)
Definition list_items (l : loc) : M (list value) :=
  o ← deref l;
  match o with
  | OList items => mret items
  | _ => raise "TypeError"
  end.

(** One action of a program that uses the class. *)
Inductive action :=
| ANew (repr_ : value)
| ACopy (s : loc)
| ALen (s : loc)
| ASetattr (s : loc) (a : string) (v : value)
| ANewList (items : list value)
| ANewTensor (dtype : string) (shape : list nat) (d : list scalar)
| AView (t : loc) (shape : list nat)
| ATensorSet (t : loc) (i : nat) (x : scalar)
| AListSet (l : loc) (i : nat) (v : value).

(** The state an action leaves, whether it returns or raises. *)
Definition perform (a : action) (σ : state) : state :=
  match a with
  | ANew r => (Solution r σ).2
  | ACopy s => (_get_copy s σ).2
  | ALen s => (__len__ recursion_limit s σ).2
  | ASetattr s a v => (setattr s a v σ).2
  | ANewList items => (new_list items σ).2
  | ANewTensor dt sh d => (new_tensor dt sh d σ).2
  | AView t sh => (Tensor_view t sh σ).2
  | ATensorSet t i x => (Tensor_setitem t i x σ).2
  | AListSet l i v => (list_setitem l i v σ).2
  end.

(** An action that assigns no attribute outside [writable]. *)
Definition writes_only (writable : string → Prop) (a : action) : Prop :=
  match a with
  | ASetattr _ name _ => writable name
  | _ => True
  end.

(** [_id] is assigned by the constructor alone. *)
Definition keeps_id : action → Prop := writes_only (λ name, name ≠ "_id").

Definition run (p : list action) (σ : state) : state :=
  foldl (λ σ a, perform a σ) σ p.

(** The states a program reaches from the start of the process. *)
Definition reachable (σ : state) : Prop :=
  ∃ p, Forall keeps_id p ∧ σ = run p initial.

(** The same, for a program that may assign any attribute. *)
Definition reachable_anyhow (σ : state) : Prop := ∃ p, σ = run p initial.

(** The attribute [a] of the solution at [l]. *)
Definition attr (σ : state) (l : loc) (a : string) : option value :=
  match heap σ !! l with
  | Some (OSolution attrs) => attrs !! a
  | _ => None
  end.

(** The elements read through the tensor at [l], in storage order. *)
Definition data_of (σ : state) (l : loc) : option (list scalar) :=
  match heap σ !! l with
  | Some (OTensor t) => storages σ !! t_storage t
  | _ => None
  end.

(** The [_id] of the solution at [l]. *)
Definition id_of (σ : state) (l : loc) : option Z :=
  match attr σ l "_id" with
  | Some (VInt i) => Some i
  | _ => None
  end.

(** [N] constructions in a row, with the references they return. *)
Fixpoint construct_all (rs : list value) : M (list loc) :=
  match rs with
  | [] => mret []
  | r :: rs' => s ← Solution r; ss ← construct_all rs'; mret (s :: ss)
  end.

(** The instance dictionary [__init__] leaves. *)
Definition init_attrs (i : Z) (repr_ : value) : gmap string value :=
  <["fit" := VNone]> (<["valid" := VNone]>
    (<["repr_" := repr_]> (<["_id" := VInt i]> ∅))).

(** ** Notions the properties are stated with *)

(** The store while a copy is in progress: once the representation is
    duplicated and the new solution built, it is the old store [h], the
    duplicate [o], the new solution with its attributes [ac], and whatever
    was cloned since. *)
Definition mid (h : list obj) (o : obj) (ex : list obj)
    (st : list (list Z)) (i : Z)
    (ac : gmap string value) (sts : list (list Z)) : state :=
  State (h ++ o :: OSolution ac :: ex) (st ++ sts) i.

(** How the representation was duplicated: a tensor by [clone], over a new
    storage; a list by [copy], item by item. *)
Definition repr_copied (σ : state) (lr : loc) (o : obj)
    (sts : list (list scalar)) : Prop :=
  match heap σ !! lr with
  | Some (OTensor t) =>
      ∃ d, storages σ !! t_storage t = Some d ∧
           o = OTensor (Tensor (t_dtype t) (t_shape t) (length (storages σ))) ∧
           sts !! 0%nat = Some d
  | Some (OList items) => o = OList items
  | _ => False
  end.

(** [m] keeps the property [I] of the state, whether it returns or
    raises. *)
Definition preserves (I : state → Prop) {A} (m : M A) : Prop :=
  ∀ σ, I σ → I (m σ).2.

(** The [_id] entry of the object at [l], when it is a solution. *)
Definition sid (h : list obj) (l : loc) : option (option value) :=
  match h !! l with
  | Some (OSolution attrs) => Some (attrs !! "_id")
  | _ => None
  end.

(** Every solution carries an integer [_id] below [Solution.id_], and a
    solution built later carries a larger one. *)
Definition ids_ok (σ : state) : Prop :=
  (∀ l v, sid (heap σ) l = Some v → ∃ i, v = Some (VInt i) ∧ i < id_ σ) ∧
  (∀ l1 l2 i1 i2,
     (l1 < l2)%nat →
     sid (heap σ) l1 = Some (Some (VInt i1)) →
     sid (heap σ) l2 = Some (Some (VInt i2)) →
     i1 < i2).

(** Every solution has [valid] and [fit]. *)
Definition has_valid_fit (σ : state) : Prop :=
  ∀ l attrs, heap σ !! l = Some (OSolution attrs) →
    is_Some (attrs !! "valid") ∧ is_Some (attrs !! "fit").

(** A tensor and its clone: same elements, and writes through either leave
    the other as it was. *)
Definition independent_clone (σ : state) (l l' : loc) (d : list Z) : Prop :=
  data_of σ l = Some d ∧ data_of σ l' = Some d ∧
  (∀ i x, data_of (Tensor_setitem l' i x σ).2 l = Some d) ∧
  (∀ i x, data_of (Tensor_setitem l i x σ).2 l' = Some d) ∧
  (∀ i x, (i < length d)%nat →
          data_of (Tensor_setitem l' i x σ).2 l' = Some (<[i := x]> d)) ∧
  (∀ i x, (i < length d)%nat →
          data_of (Tensor_setitem l i x σ).2 l = Some (<[i := x]> d)).

(** The solutions [construct_all] adds to the store, from counter [i]. *)
Fixpoint constructed (i : Z) (rs : list value) : list obj :=
  match rs with
  | [] => []
  | r :: rs' => OSolution (init_attrs i r) :: constructed (i + 1) rs'
  end.

(** The number of elements of a representation: the length of a list, the
    size of a tensor along its first dimension. *)
Definition element_count (o : obj) : option Z :=
  match o with
  | OList items => Some (Z.of_nat (length items))
  | OTensor t => Z.of_nat <$> head (t_shape t)
  | OSolution _ => None
  end.

(** A representation [len] has no answer for: an immutable value, or a
    tensor without dimensions. *)
Definition no_len (σ : state) (v : value) : Prop :=
  match v with
  | VRef l =>
      match heap σ !! l with
      | Some (OTensor t) => t_shape t = []
      | _ => False
      end
  | _ => True
  end.

(** A solution that has been evaluated and carries no [test_fit]: its
    representation is a list or a tensor, its fitness a tensor. *)
Definition copyable (σ : state) (s : loc) : Prop :=
  ∃ attrs lr lf,
    heap σ !! s = Some (OSolution attrs) ∧
    attrs !! "repr_" = Some (VRef lr) ∧
    (is_Some (data_of σ lr) ∨ ∃ items, heap σ !! lr = Some (OList items)) ∧
    attrs !! "fit" = Some (VRef lf) ∧
    is_Some (data_of σ lf) ∧
    attrs !! "test_fit" = None.

(** A representation without a [copy] method that is no tensor either: an
    immutable value, or a solution. *)
Definition no_copy (σ : state) (v : value) : Prop :=
  match v with
  | VRef l =>
      match heap σ !! l with
      | Some (OSolution _) => True
      | _ => False
      end
  | _ => True
  end.

(** A specification of [m]: from a state in [P], a returned value and the
    state it leaves are in [Q]; an escaping exception, or [None] for a run
    that is stuck, and the state it leaves are in [F]. *)
Definition hoare {A} (P : state → Prop) (m : M A)
    (Q : A → state → Prop) (F : option string → state → Prop) : Prop :=
  ∀ σ, P σ →
    match m σ with
    | (Ok a, σ') => Q a σ'
    | (Raise e, σ') => F (Some e) σ'
    | (Stuck, σ') => F None σ'
    end.

(** [σ] holds everything [σ0] held, unchanged and at the same place, and
    its counter is [k] ahead. *)
Definition grown (σ0 : state) (k : Z) (σ : state) : Prop :=
  heap σ0 `prefix_of` heap σ ∧
  storages σ0 `prefix_of` storages σ ∧
  id_ σ = id_ σ0 + k.

(** How a copy started in [σ0] may fail: with [AttributeError] or stuck,
    having at most built the new solution. *)
Definition copy_failed (σ0 : state) (e : option string) (σ : state) : Prop :=
  (grown σ0 0 σ ∨ grown σ0 1 σ) ∧ (e = None ∨ e = Some "AttributeError").

(** A solution over a list, evaluated: the store holds the list, the
    solution and its fitness tensor. *)
Definition evaluated : state :=
  run [ANewList [VInt 1; VInt 2; VInt 3]; ANew (VRef 0%nat);
       ANewTensor "float32" [] [7]; ASetattr 1%nat "fit" (VRef 2%nat)]
      initial.

(** The same over a tensor. *)
Definition evaluated_tensor : state :=
  run [ANewTensor "float32" [3%nat] [10; 20; 30]; ANew (VRef 0%nat);
       ANewTensor "float32" [] [7]; ASetattr 1%nat "fit" (VRef 2%nat)]
      initial.

(** The same with a view of the representation: a second tensor over the
    storage of the first. *)
Definition evaluated_with_view : state :=
  perform (AView 0%nat [3%nat; 1%nat]) evaluated_tensor.

(** * Properties *)

(** ** The monad *)

Section monad.
Context {A B : Type}.
Implicit Types (m : M A) (f : A → M B).

Lemma bind_run m f σ :
  (m ≫= f) σ =
  match m σ with
  | (Ok a, σ1) => f a σ1
  | (Raise e, σ1) => (Raise e, σ1)
  | (Stuck, σ1) => (Stuck, σ1)
  end.
Proof. reflexivity. Qed.

Lemma bind_Ok_inv m f σ b σ' :
  (m ≫= f) σ = (Ok b, σ') →
  ∃ a σ1, m σ = (Ok a, σ1) ∧ f a σ1 = (Ok b, σ').
Proof.
  rewrite bind_run. destruct (m σ) as [[a|e|] σ1]; [eauto | done | done].
Qed.
End monad.

Lemma ret_run {A} (a : A) σ : mret (M := M) a σ = (Ok a, σ).
Proof. reflexivity. Qed.

(** ** The store *)

Lemma lookup_snoc {X} (h : list X) (o : X) : (h ++ [o]) !! length h = Some o.
Proof. by apply list_lookup_middle. Qed.

Lemma insert_snoc {X} (h : list X) (o o' : X) :
  <[length h := o']> (h ++ [o]) = h ++ [o'].
Proof.
  rewrite insert_app_r_alt by lia. by rewrite Nat.sub_diag.
Qed.

Lemma setattr_new h st i attrs a v :
  setattr (length h) a v (State (h ++ [OSolution attrs]) st i)
  = (Ok (), State (h ++ [OSolution (<[a := v]> attrs)]) st i).
Proof.
  unfold setattr, deref, store. rewrite bind_run. simpl.
  rewrite lookup_snoc. simpl. by rewrite insert_snoc.
Qed.

(** The constructor always returns: the new solution is the next object of
    the store, holds the four attributes of [__init__], and the counter has
    moved by one. *)
Lemma Solution_run r σ :
  Solution r σ
  = (Ok (length (heap σ)),
     State (heap σ ++ [OSolution (init_attrs (id_ σ) r)])
           (storages σ) (id_ σ + 1)).
Proof.
  unfold Solution. destruct σ as [h st i]. simpl.
  rewrite bind_run. simpl. rewrite bind_run. simpl.
  rewrite bind_run, setattr_new. rewrite bind_run. simpl.
  rewrite bind_run. simpl.
  rewrite bind_run, setattr_new.
  rewrite bind_run, setattr_new.
  rewrite bind_run, setattr_new. reflexivity.
Qed.

(** ** Attribute access and the library operations, step by step *)

Lemma getattr_run l a σ :
  getattr l a σ =
  match heap σ !! l with
  | Some (OSolution attrs) =>
      match attrs !! a with
      | Some v => (Ok v, σ)
      | None => (Raise "AttributeError", σ)
      end
  | Some _ => (Raise "AttributeError", σ)
  | None => (Stuck, σ)
  end.
Proof.
  unfold getattr, deref. rewrite bind_run.
  destruct (heap σ !! l) as [[t|items|attrs]|]; try done.
  by destruct (attrs !! a).
Qed.

Lemma getattr_Ok l a v σ σ' :
  getattr l a σ = (Ok v, σ') →
  σ' = σ ∧ ∃ attrs, heap σ !! l = Some (OSolution attrs) ∧ attrs !! a = Some v.
Proof.
  rewrite getattr_run.
  destruct (heap σ !! l) as [[t|items|attrs]|]; try done.
  destruct (attrs !! a) eqn:E; [|done]. intros [= -> ->]. eauto.
Qed.

Lemma hasattr_run l a σ :
  hasattr l a σ =
  match heap σ !! l with
  | Some (OSolution attrs) => (Ok (bool_decide (is_Some (attrs !! a))), σ)
  | Some _ => (Ok false, σ)
  | None => (Stuck, σ)
  end.
Proof.
  unfold hasattr, deref. rewrite bind_run.
  by destruct (heap σ !! l) as [[t|items|attrs]|].
Qed.

Lemma setattr_run l a v σ :
  setattr l a v σ =
  match heap σ !! l with
  | Some (OSolution attrs) =>
      (Ok (), State (<[l := OSolution (<[a := v]> attrs)]> (heap σ))
                    (storages σ) (id_ σ))
  | Some _ => (Raise "AttributeError", σ)
  | None => (Stuck, σ)
  end.
Proof.
  unfold setattr, deref, store. rewrite bind_run.
  by destruct (heap σ !! l) as [[t|items|attrs]|].
Qed.

Lemma type_is_Tensor_run v σ :
  type_is_Tensor v σ =
  match v with
  | VRef l =>
      match heap σ !! l with
      | Some (OTensor _) => (Ok true, σ)
      | Some _ => (Ok false, σ)
      | None => (Stuck, σ)
      end
  | _ => (Ok false, σ)
  end.
Proof.
  destruct v; try done. unfold type_is_Tensor, deref. rewrite bind_run.
  by destruct (heap σ !! l) as [[t|items|attrs]|].
Qed.

Lemma type_is_Tensor_Ok v b σ σ' :
  type_is_Tensor v σ = (Ok b, σ') →
  σ' = σ ∧
  b = match v with
      | VRef l =>
          match heap σ !! l with Some (OTensor _) => true | _ => false end
      | _ => false
      end.
Proof.
  rewrite type_is_Tensor_run.
  destruct v as [| | | |l]; try by intros [= <- <-].
  destruct (heap σ !! l) as [[t|items|attrs]|]; try done;
    by intros [= <- <-].
Qed.

Lemma call_clone_run v σ :
  call_clone v σ =
  match v with
  | VRef l =>
      match heap σ !! l with
      | Some (OTensor t) =>
          match storages σ !! t_storage t with
          | Some d =>
              (Ok (VRef (length (heap σ))),
               State (heap σ ++ [OTensor (Tensor (t_dtype t) (t_shape t)
                                                 (length (storages σ)))])
                     (storages σ ++ [d]) (id_ σ))
          | None => (Stuck, σ)
          end
      | Some _ => (Raise "AttributeError", σ)
      | None => (Stuck, σ)
      end
  | _ => (Raise "AttributeError", σ)
  end.
Proof.
  destruct v; try done. unfold call_clone, deref. rewrite bind_run.
  destruct (heap σ !! l) as [[t|items|attrs]|]; try done.
  unfold Tensor_clone, read_storage. rewrite !bind_run.
  by destruct (storages σ !! t_storage t).
Qed.

Lemma call_copy_run v σ :
  call_copy v σ =
  match v with
  | VRef l =>
      match heap σ !! l with
      | Some (OList items) =>
          (Ok (VRef (length (heap σ))),
           State (heap σ ++ [OList items]) (storages σ) (id_ σ))
      | Some _ => (Raise "AttributeError", σ)
      | None => (Stuck, σ)
      end
  | _ => (Raise "AttributeError", σ)
  end.
Proof.
  destruct v; try done. unfold call_copy, deref. rewrite bind_run.
  by destruct (heap σ !! l) as [[t|items|attrs]|].
Qed.

(** ** The copy in progress

    Once the representation is duplicated and the new solution built, the
    store is the old one followed by the duplicate [o], the new solution and
    whatever was cloned since. *)

Section in_progress.
Context (h : list obj) (o : obj) (ex : list obj).
Context (st : list (list scalar)) (i : Z).
Implicit Types (ac : gmap string value).

Lemma lookup_mid_new (y : obj) : (h ++ o :: y :: ex) !! S (length h) = Some y.
Proof.
  rewrite lookup_app_r by lia.
  by replace (S (length h) - length h)%nat with 1%nat by lia.
Qed.

Lemma insert_mid_new (x y : obj) :
  <[S (length h) := x]> (h ++ o :: y :: ex) = h ++ o :: x :: ex.
Proof.
  rewrite insert_app_r_alt by lia.
  by replace (S (length h) - length h)%nat with 1%nat by lia.
Qed.

Lemma setattr_mid ac sts a v :
  setattr (S (length h)) a v (mid h o ex st i ac sts)
  = (Ok (), mid h o ex st i (<[a := v]> ac) sts).
Proof.
  rewrite setattr_run. unfold mid. simpl.
  by rewrite lookup_mid_new, insert_mid_new.
Qed.

Lemma getattr_mid ac sts s attrs a :
  h !! s = Some (OSolution attrs) →
  getattr s a (mid h o ex st i ac sts) =
  match attrs !! a with
  | Some v => (Ok v, mid h o ex st i ac sts)
  | None => (Raise "AttributeError", mid h o ex st i ac sts)
  end.
Proof.
  intros Hs. rewrite getattr_run. unfold mid. simpl.
  by rewrite (lookup_app_l_Some _ _ _ _ Hs).
Qed.

Lemma hasattr_mid ac sts s attrs a :
  h !! s = Some (OSolution attrs) →
  hasattr s a (mid h o ex st i ac sts)
  = (Ok (bool_decide (is_Some (attrs !! a))), mid h o ex st i ac sts).
Proof.
  intros Hs. rewrite hasattr_run. unfold mid. simpl.
  by rewrite (lookup_app_l_Some _ _ _ _ Hs).
Qed.
End in_progress.

Lemma mid_snoc h o y ex (n : obj) :
  (h ++ o :: y :: ex) ++ [n] = h ++ o :: y :: (ex ++ [n]).
Proof. by rewrite <- app_assoc. Qed.

Lemma length_mid h (o y : obj) ex :
  length (h ++ o :: y :: ex) = (length h + 2 + length ex)%nat.
Proof. rewrite length_app. simpl. lia. Qed.

(** One guarded clone of [_get_copy]: when the original has [guard], read
    [src], clone it, and bind the clone to [dst] on the copy. *)
Lemma clone_phase_Ok h o ex st i ac sts s attrs guard src dst τ :
  h !! s = Some (OSolution attrs) →
  (if bool_decide (is_Some (attrs !! guard)) then
     f ← getattr s src; k ← call_clone f; setattr (S (length h)) dst k
   else mret ()) (mid h o ex st i ac sts) = (Ok (), τ) →
  ∃ ex' sts' ac',
    τ = mid h o (ex ++ ex') st i ac' (sts ++ sts') ∧
    (∀ a, a ≠ dst → ac' !! a = ac !! a) ∧
    (attrs !! guard = None → ac' = ac) ∧
    (is_Some (attrs !! guard) → ∃ lf, attrs !! src = Some (VRef lf)) ∧
    (∀ lf t d,
       is_Some (attrs !! guard) →
       attrs !! src = Some (VRef lf) →
       h !! lf = Some (OTensor t) →
       st !! t_storage t = Some d →
       ac' !! dst = Some (VRef (length h + 2 + length ex)%nat) ∧
       ex' = [OTensor (Tensor (t_dtype t) (t_shape t)
                              (length st + length sts))] ∧
       sts' = [d]).
Proof.
  intros Hs. case_bool_decide as Hg.
  - intros H.
    apply bind_Ok_inv in H as (f & τ1 & Hf & H).
    rewrite (getattr_mid _ _ _ _ _ _ _ _ _ _ Hs) in Hf.
    destruct (attrs !! src) as [f'|] eqn:Hsrc; [|done].
    injection Hf as -> <-.
    apply bind_Ok_inv in H as (k & τ2 & Hk & H).
    rewrite call_clone_run in Hk.
    destruct f as [| | | |lf]; try done.
    unfold mid in Hk at 1 2. simpl in Hk.
    destruct ((h ++ o :: OSolution ac :: ex) !! lf)
      as [[t|?|?]|] eqn:Hlf; try done.
    destruct ((st ++ sts) !! t_storage t) as [d|] eqn:Hd; [|done].
    injection Hk as <- <-.
    rewrite mid_snoc, length_mid, length_app in H.
    rewrite <- (app_assoc st sts [d]) in H.
    change (State (h ++ o :: OSolution ac :: ?e) (st ++ ?b) i)
      with (mid h o e st i ac b) in H.
    rewrite setattr_mid in H. injection H as <-.
    eexists _, _, _. split; [reflexivity|].
    split; [intros a Ha; by rewrite lookup_insert_ne|].
    split; [intros Hn; rewrite Hn in Hg; by destruct Hg|].
    split; [by eauto|].
    intros lf' t' d' _ [= <-] Hlf' Hd'.
    rewrite (lookup_app_l_Some _ _ _ _ Hlf') in Hlf. injection Hlf as <-.
    rewrite (lookup_app_l_Some _ _ _ _ Hd') in Hd. injection Hd as <-.
    by rewrite lookup_insert_eq.
  - intros [= <-]. exists [], [], ac. rewrite !app_nil_r.
    split; [done|]. split; [done|]. split; [done|]. split; [done|].
    intros lf t d Hg'. done.
Qed.

(** Everything a returning [_get_copy] has done, with the attributes it
    leaves as the constructor bound them. *)
Lemma _get_copy_Ok_full s c σ σ' :
  _get_copy s σ = (Ok c, σ') →
  ∃ attrs lr o ac ex sts,
    (∀ a, a ≠ "valid" → a ≠ "fit" → a ≠ "val_fit" →
          ac !! a = init_attrs (id_ σ) (VRef (length (heap σ))) !! a) ∧
    heap σ !! s = Some (OSolution attrs) ∧
    attrs !! "repr_" = Some (VRef lr) ∧
    c = S (length (heap σ)) ∧
    σ' = mid (heap σ) o ex (storages σ) (id_ σ + 1) ac sts ∧
    repr_copied σ lr o sts ∧
    ac !! "_id" = Some (VInt (id_ σ)) ∧
    ac !! "repr_" = Some (VRef (length (heap σ))) ∧
    ac !! "valid" = Some (default VNone (attrs !! "valid")) ∧
    (attrs !! "fit" = None → ac !! "fit" = Some VNone) ∧
    (∀ f, attrs !! "fit" = Some f → ∃ lf, f = VRef lf) ∧
    (is_Some (attrs !! "test_fit") →
     ∃ lv, attrs !! "val_fit" = Some (VRef lv)) ∧
    (attrs !! "test_fit" = None → ac !! "val_fit" = None) ∧
    ac !! "test_fit" = None ∧
    (∀ lf t d,
       attrs !! "fit" = Some (VRef lf) →
       heap σ !! lf = Some (OTensor t) →
       storages σ !! t_storage t = Some d →
       ∃ k j,
         ac !! "fit" = Some (VRef (length (heap σ) + 2 + k)%nat) ∧
         ex !! k = Some (OTensor (Tensor (t_dtype t) (t_shape t)
                                         (length (storages σ) + j))) ∧
         sts !! j = Some d).
Proof.
  intros H. unfold _get_copy in H.
  apply bind_Ok_inv in H as (r & σ1 & Hr & H).
  apply getattr_Ok in Hr as (-> & attrs & Hs & Hr).
  apply bind_Ok_inv in H as (is_t & σ2 & Ht & H).
  apply bind_Ok_inv in H as (c' & σ3 & Hc & H).
  assert (∃ lr o sts0,
    r = VRef lr ∧ c' = S (length (heap σ)) ∧
    σ3 = mid (heap σ) o [] (storages σ) (id_ σ + 1)
             (init_attrs (id_ σ) (VRef (length (heap σ)))) sts0 ∧
    repr_copied σ lr o sts0 ∧ (length sts0 ≤ 1)%nat)
    as (lr & o & sts0 & -> & -> & -> & Hcopied & Hlen0);
    [|clear Ht Hc].
  { apply type_is_Tensor_Ok in Ht as [-> Ht].
    destruct is_t;
      apply bind_Ok_inv in Hc as (r' & σ4 & Hr' & Hc);
      rewrite getattr_run, Hs, Hr in Hr'; injection Hr' as <- <-;
      apply bind_Ok_inv in Hc as (k & σ5 & Hk & Hc);
      rewrite Solution_run in Hc; injection Hc as <- <-;
      destruct r as [| | | |lr]; try done.
    - rewrite call_clone_run in Hk.
      destruct (heap σ !! lr) as [[t|?|?]|] eqn:Hlr; try done.
      destruct (storages σ !! t_storage t) as [d|] eqn:Hd; [|done].
      injection Hk as <- <-. simpl.
      exists lr, (OTensor (Tensor (t_dtype t) (t_shape t)
                                  (length (storages σ)))), [d].
      rewrite length_app. simpl.
      split; [done|]. split; [f_equal; lia|].
      split; [unfold mid; rewrite <- app_assoc; simpl;
              do 6 f_equal; lia|].
      split; [|simpl; lia].
      unfold repr_copied. rewrite Hlr. eauto.
    - rewrite call_copy_run in Hk.
      destruct (heap σ !! lr) as [[?|items|?]|] eqn:Hlr; try done.
      injection Hk as <- <-. simpl.
      exists lr, (OList items), [].
      rewrite length_app. simpl.
      split; [done|]. split; [f_equal; lia|].
      split; [unfold mid; rewrite <- app_assoc, app_nil_r; simpl;
              do 6 f_equal; lia|].
      split; [|simpl; lia].
      unfold repr_copied. by rewrite Hlr. }
  (* valid *)
  apply bind_Ok_inv in H as (hv & τ & Hhv & H).
  rewrite (hasattr_mid _ _ _ _ _ _ _ _ _ _ Hs) in Hhv.
  injection Hhv as <- <-.
  apply bind_Ok_inv in H as ([] & τ1 & Hv & H).
  assert (∃ ac1, τ1 = mid (heap σ) o [] (storages σ) (id_ σ + 1) ac1 sts0 ∧
    (∀ a, a ≠ "valid" →
          ac1 !! a = init_attrs (id_ σ) (VRef (length (heap σ))) !! a) ∧
    ac1 !! "valid" = Some (default VNone (attrs !! "valid")))
    as (ac1 & -> & Hac1 & Hvalid).
  { case_bool_decide as Hg.
    - apply bind_Ok_inv in Hv as (v & τ2 & Hv1 & Hv).
      rewrite (getattr_mid _ _ _ _ _ _ _ _ _ _ Hs) in Hv1.
      destruct (attrs !! "valid") as [v'|] eqn:Hvv; [|done].
      injection Hv1 as -> <-. rewrite setattr_mid in Hv.
      injection Hv as <-. eexists. split; [reflexivity|].
      split; [intros a Ha; by rewrite lookup_insert_ne|].
      by rewrite lookup_insert_eq.
    - injection Hv as <-. eexists. split; [reflexivity|].
      destruct (attrs !! "valid") eqn:Hvv; [by destruct Hg|].
      done. }
  (* fit *)
  apply bind_Ok_inv in H as (hf & τ & Hhf & H).
  rewrite (hasattr_mid _ _ _ _ _ _ _ _ _ _ Hs) in Hhf.
  injection Hhf as <- <-.
  apply bind_Ok_inv in H as ([] & τ2 & Hf & H).
  apply (clone_phase_Ok _ _ _ _ _ _ _ _ _ _ _ _ _ Hs) in Hf
    as (ex2 & sts2 & ac2 & -> & Hac2 & Hnone2 & Href2 & Hsome2).
  (* validation fitness *)
  apply bind_Ok_inv in H as (ht & τ & Hht & H).
  rewrite (hasattr_mid _ _ _ _ _ _ _ _ _ _ Hs) in Hht.
  injection Hht as <- <-.
  apply bind_Ok_inv in H as ([] & τ3 & Ht3 & H).
  apply (clone_phase_Ok _ _ _ _ _ _ _ _ _ _ _ _ _ Hs) in Ht3
    as (ex3 & sts3 & ac3 & -> & Hac3 & Hnone3 & Href3 & Hsome3).
  injection H as <- <-.
  exists attrs, lr, o, ac3, ([] ++ ex2 ++ ex3), (sts0 ++ sts2 ++ sts3).
  rewrite !app_assoc.
  split; [intros a ? ? ?; by rewrite Hac3, Hac2, Hac1|].
  split; [done|]. split; [done|]. split; [done|]. split; [done|].
  split.
  { unfold repr_copied in *.
    destruct (heap σ !! lr) as [[t|?|?]|]; try done.
    destruct Hcopied as (d & ? & ? & Hd). exists d.
    split; [done|]. split; [done|].
    rewrite <- app_assoc. by apply lookup_app_l_Some. }
  split; [by rewrite Hac3, Hac2, Hac1|].
  split; [by rewrite Hac3, Hac2, Hac1|].
  split; [by rewrite Hac3, Hac2|].
  split.
  { intros Hn. rewrite Hac3 by done. by rewrite (Hnone2 Hn), Hac1. }
  split.
  { intros f Hf. destruct Href2 as [lf Hlf]; [by rewrite Hf|].
    exists lf. congruence. }
  split; [done|].
  split; [intros Hn; by rewrite (Hnone3 Hn), Hac2, Hac1|].
  split; [by rewrite Hac3, Hac2, Hac1|].
  intros lf t d Hlf Hlt Hd.
  destruct (Hsome2 lf t d) as (Hk & -> & ->); [by rewrite Hlf|done..|].
  exists 0%nat, (length sts0). rewrite Hac3 by done.
  split; [rewrite Hk; simpl; do 2 f_equal; lia|].
  split; [done|].
  rewrite <- !app_assoc. rewrite lookup_app_r by lia.
  by rewrite Nat.sub_diag.
Qed.

(** Everything a returning [_get_copy] has done. *)
Lemma _get_copy_Ok s c σ σ' :
  _get_copy s σ = (Ok c, σ') →
  ∃ attrs lr o ac ex sts,
    heap σ !! s = Some (OSolution attrs) ∧
    attrs !! "repr_" = Some (VRef lr) ∧
    c = S (length (heap σ)) ∧
    σ' = mid (heap σ) o ex (storages σ) (id_ σ + 1) ac sts ∧
    repr_copied σ lr o sts ∧
    ac !! "_id" = Some (VInt (id_ σ)) ∧
    ac !! "repr_" = Some (VRef (length (heap σ))) ∧
    ac !! "valid" = Some (default VNone (attrs !! "valid")) ∧
    (attrs !! "fit" = None → ac !! "fit" = Some VNone) ∧
    (∀ f, attrs !! "fit" = Some f → ∃ lf, f = VRef lf) ∧
    (is_Some (attrs !! "test_fit") →
     ∃ lv, attrs !! "val_fit" = Some (VRef lv)) ∧
    (attrs !! "test_fit" = None → ac !! "val_fit" = None) ∧
    ac !! "test_fit" = None ∧
    (∀ lf t d,
       attrs !! "fit" = Some (VRef lf) →
       heap σ !! lf = Some (OTensor t) →
       storages σ !! t_storage t = Some d →
       ∃ k j,
         ac !! "fit" = Some (VRef (length (heap σ) + 2 + k)%nat) ∧
         ex !! k = Some (OTensor (Tensor (t_dtype t) (t_shape t)
                                         (length (storages σ) + j))) ∧
         sts !! j = Some d).
Proof.
  intros H.
  destruct (_get_copy_Ok_full _ _ _ _ H)
    as (attrs & lr & o & ac & ex & sts & _ & Hrest).
  by exists attrs, lr, o, ac, ex, sts.
Qed.

(** The clone of one attribute, when the attribute is a tensor of the old
    store. *)
Lemma clone_phase_run h o ex st i ac sts s attrs src dst lf t d :
  h !! s = Some (OSolution attrs) →
  attrs !! src = Some (VRef lf) →
  h !! lf = Some (OTensor t) →
  st !! t_storage t = Some d →
  (f ← getattr s src; k ← call_clone f; setattr (S (length h)) dst k)
    (mid h o ex st i ac sts)
  = (Ok (),
     mid h o (ex ++ [OTensor (Tensor (t_dtype t) (t_shape t)
                                     (length st + length sts))])
         st i (<[dst := VRef (length h + 2 + length ex)%nat]> ac)
         (sts ++ [d])).
Proof.
  intros Hs Hsrc Hlf Hd.
  rewrite bind_run, (getattr_mid _ _ _ _ _ _ _ _ _ _ Hs), Hsrc.
  rewrite bind_run, call_clone_run. unfold mid at 1 2. simpl.
  rewrite (lookup_app_l_Some _ _ _ _ Hlf), (lookup_app_l_Some _ _ _ _ Hd).
  rewrite mid_snoc, length_mid, length_app, <- (app_assoc st sts [d]).
  apply setattr_mid.
Qed.

Lemma mid_intro h o st i ac sts :
  State ((h ++ [o]) ++ [OSolution ac]) (st ++ sts) i = mid h o [] st i ac sts.
Proof. unfold mid. by rewrite <- app_assoc. Qed.

Lemma mid_intro_nil h o st i ac :
  State ((h ++ [o]) ++ [OSolution ac]) st i = mid h o [] st i ac [].
Proof. unfold mid. by rewrite <- app_assoc, app_nil_r. Qed.

(** The attribute part of [_get_copy], for an evaluated original without
    [test_fit]. *)
Lemma copy_attributes_return h o st i ac sts s attrs lf t d :
  h !! s = Some (OSolution attrs) →
  attrs !! "fit" = Some (VRef lf) →
  h !! lf = Some (OTensor t) →
  st !! t_storage t = Some d →
  attrs !! "test_fit" = None →
  ∃ σ',
    (hv ← hasattr s "valid";
     (if hv : bool then
        v ← getattr s "valid"; setattr (S (length h)) "valid" v
      else mret ());;
     hf ← hasattr s "fit";
     (if hf : bool then
        f ← getattr s "fit"; c ← call_clone f;
        setattr (S (length h)) "fit" c
      else mret ());;
     ht ← hasattr s "test_fit";
     (if ht : bool then
        f ← getattr s "val_fit"; c ← call_clone f;
        setattr (S (length h)) "val_fit" c
      else mret ());;
     mret (S (length h))) (mid h o [] st i ac sts)
    = (Ok (S (length h)), σ').
Proof.
  intros Hs Hf Hlf Hd Htest.
  rewrite bind_run, (hasattr_mid _ _ _ _ _ _ _ _ _ _ Hs).
  assert (∃ ac1,
    (if bool_decide (is_Some (attrs !! "valid")) then
       v ← getattr s "valid"; setattr (S (length h)) "valid" v
     else mret ()) (mid h o [] st i ac sts)
    = (Ok (), mid h o [] st i ac1 sts)) as [ac1 Hvalid].
  { case_bool_decide as Hv; [|by eauto]. destruct Hv as [v Hv].
    rewrite bind_run, (getattr_mid _ _ _ _ _ _ _ _ _ _ Hs), Hv, setattr_mid.
    eauto. }
  rewrite bind_run, Hvalid.
  rewrite bind_run, (hasattr_mid _ _ _ _ _ _ _ _ _ _ Hs), Hf.
  rewrite bool_decide_eq_true_2 by eauto.
  rewrite bind_run, (clone_phase_run _ _ _ _ _ _ _ _ _ _ _ _ _ _ Hs Hf Hlf Hd).
  rewrite bind_run, (hasattr_mid _ _ _ _ _ _ _ _ _ _ Hs), Htest.
  rewrite bool_decide_eq_false_2 by (by intros [? ?]).
  rewrite bind_run, !ret_run. eauto.
Qed.

(** An evaluated solution without [test_fit] can be copied. *)
Lemma _get_copy_returns σ s :
  copyable σ s → ∃ σ', _get_copy s σ = (Ok (S (length (heap σ))), σ').
Proof.
  intros (attrs & lr & lf & Hs & Hr & Hlr & Hf & Hlf & Htest).
  unfold data_of in Hlf.
  destruct (heap σ !! lf) as [[tf| |]|] eqn:Hlfσ; try (by destruct Hlf).
  destruct Hlf as [df Hdf].
  unfold _get_copy.
  rewrite bind_run, getattr_run, Hs, Hr.
  rewrite bind_run, type_is_Tensor_run.
  unfold data_of in Hlr.
  destruct (heap σ !! lr) as [[t|items|]|] eqn:Hlrσ.
  - destruct Hlr as [[d Hd]|[? [=]]].
    rewrite bind_run.
    rewrite bind_run, getattr_run, Hs, Hr.
    rewrite bind_run, call_clone_run, Hlrσ, Hd, Solution_run. simpl.
    rewrite mid_intro, length_app. simpl.
    replace (length (heap σ) + 1)%nat with (S (length (heap σ))) by lia.
    by eapply copy_attributes_return.
  - rewrite bind_run.
    rewrite bind_run, getattr_run, Hs, Hr.
    rewrite bind_run, call_copy_run, Hlrσ, Solution_run. simpl.
    rewrite mid_intro_nil, length_app. simpl.
    replace (length (heap σ) + 1)%nat with (S (length (heap σ))) by lia.
    by eapply copy_attributes_return.
  - by destruct Hlr as [[? ?]|[? ?]].
  - by destruct Hlr as [[? ?]|[? ?]].
Qed.

Example evaluated_copyable :
  copyable evaluated 1%nat ∧ copyable evaluated_tensor 1%nat.
Proof.
  split;
    exists (<["fit" := VRef 2%nat]> (init_attrs 0 (VRef 0%nat))), 0%nat, 2%nat.
  - split; [done|]. split; [done|]. split; [right; by eexists|].
    split; [done|]. split; [by eexists|done].
  - split; [done|]. split; [done|]. split; [left; by eexists|].
    split; [done|]. split; [by eexists|done].
Qed.

(** ** Invariants of the store

    A property of the state that survives allocation, construction, the
    assignment of a writable attribute and in-place mutation survives every
    action, whether the action returns or raises. *)

Section invariant.
Variable I : state → Prop.
Variable writable : string → Prop.

Hypothesis I_alloc : ∀ σ o,
  (∀ attrs, o ≠ OSolution attrs) →
  I σ → I (State (heap σ ++ [o]) (storages σ) (id_ σ)).
Hypothesis I_new : ∀ σ r,
  I σ →
  I (State (heap σ ++ [OSolution (init_attrs (id_ σ) r)])
           (storages σ) (id_ σ + 1)).
Hypothesis I_setattr : ∀ σ l attrs a v,
  writable a →
  heap σ !! l = Some (OSolution attrs) →
  I σ →
  I (State (<[l := OSolution (<[a := v]> attrs)]> (heap σ))
           (storages σ) (id_ σ)).
Hypothesis I_list : ∀ σ l items items',
  heap σ !! l = Some (OList items) →
  I σ → I (State (<[l := OList items']> (heap σ)) (storages σ) (id_ σ)).
Hypothesis I_storages : ∀ σ st,
  I σ → I (State (heap σ) st (id_ σ)).
Hypothesis writable_valid : writable "valid".
Hypothesis writable_fit : writable "fit".
Hypothesis writable_val_fit : writable "val_fit".

Lemma preserves_ret {A} (a : A) : preserves I (mret a).
Proof. by intros σ. Qed.

Lemma preserves_raise {A} e : preserves I (raise (A := A) e).
Proof. by intros σ. Qed.

Lemma preserves_bind {A B} (m : M A) (f : A → M B) :
  preserves I m → (∀ a, preserves I (f a)) → preserves I (m ≫= f).
Proof.
  intros Hm Hf σ Hσ. rewrite bind_run. specialize (Hm σ Hσ).
  destruct (m σ) as [[a|e|] σ1]; simpl in *; [by apply Hf|done..].
Qed.

Lemma preserves_if {A} (b : bool) (m1 m2 : M A) :
  preserves I m1 → preserves I m2 → preserves I (if b then m1 else m2).
Proof. by destruct b. Qed.

Lemma preserves_getattr l a : preserves I (getattr l a).
Proof.
  intros σ Hσ. rewrite getattr_run.
  destruct (heap σ !! l) as [[| |attrs]|]; try done.
  by destruct (attrs !! a).
Qed.

Lemma preserves_hasattr l a : preserves I (hasattr l a).
Proof.
  intros σ Hσ. rewrite hasattr_run.
  by destruct (heap σ !! l) as [[| |attrs]|].
Qed.

Lemma preserves_type_is_Tensor v : preserves I (type_is_Tensor v).
Proof.
  intros σ Hσ. rewrite type_is_Tensor_run.
  destruct v as [| | | |l]; try done.
  by destruct (heap σ !! l) as [[| |attrs]|].
Qed.

Lemma preserves_setattr l a v : writable a → preserves I (setattr l a v).
Proof.
  intros Ha σ Hσ. rewrite setattr_run.
  destruct (heap σ !! l) as [[| |attrs]|] eqn:Hl; try done.
  simpl. by apply I_setattr.
Qed.

Lemma preserves_call_clone v : preserves I (call_clone v).
Proof.
  intros σ Hσ. rewrite call_clone_run.
  destruct v as [| | | |l]; try done.
  destruct (heap σ !! l) as [[t| |attrs]|]; try done.
  destruct (storages σ !! t_storage t) as [d|]; [|done]. simpl.
  apply (I_alloc (State (heap σ) (storages σ ++ [d]) (id_ σ))); [done|].
  by apply I_storages.
Qed.

Lemma preserves_call_copy v : preserves I (call_copy v).
Proof.
  intros σ Hσ. rewrite call_copy_run.
  destruct v as [| | | |l]; try done.
  destruct (heap σ !! l) as [[|items|attrs]|]; try done.
  simpl. by apply I_alloc.
Qed.

Lemma preserves_Solution r : preserves I (Solution r).
Proof. intros σ Hσ. rewrite Solution_run. simpl. by apply I_new. Qed.

Lemma preserves__get_copy s : preserves I (_get_copy s).
Proof.
  unfold _get_copy.
  repeat first
    [ apply preserves_getattr
    | apply preserves_hasattr
    | apply preserves_type_is_Tensor
    | apply preserves_call_clone
    | apply preserves_call_copy
    | apply preserves_Solution
    | apply preserves_setattr; assumption
    | apply preserves_ret
    | apply preserves_if
    | apply preserves_bind; [|intros ?] ].
Qed.

Lemma py_len_state depth v σ : (py_len depth v σ).2 = σ.
Proof.
  revert v. induction depth as [|depth IH]; intros v;
    destruct v as [| | | |l]; try done; simpl;
    unfold deref; rewrite bind_run;
    destruct (heap σ !! l) as [[t| |attrs]|] eqn:Hl; try done;
    try (by destruct (t_shape t)).
  rewrite bind_run, getattr_run, Hl.
  destruct (attrs !! "repr_"); [apply IH|done].
Qed.

Lemma __len___state depth s σ : (__len__ depth s σ).2 = σ.
Proof.
  unfold __len__. rewrite bind_run, getattr_run.
  destruct (heap σ !! s) as [[| |attrs]|]; try done.
  destruct (attrs !! "repr_"); [apply py_len_state|done].
Qed.

Lemma preserves_perform a :
  writes_only writable a → ∀ σ, I σ → I (perform a σ).
Proof.
  intros Ha σ Hσ. destruct a as [r|s|s|s a v|items|dt sh d|t sh|t i x|l i v];
    simpl.
  - by apply preserves_Solution.
  - by apply preserves__get_copy.
  - by rewrite __len___state.
  - by apply preserves_setattr.
  - by apply I_alloc.
  - apply (I_alloc (State (heap σ) (storages σ ++ [d]) (id_ σ))); [done|].
    by apply I_storages.
  - unfold Tensor_view, deref. rewrite bind_run.
    destruct (heap σ !! t) as [[| |]|]; try done. simpl. by apply I_alloc.
  - unfold Tensor_setitem, deref, read_storage. rewrite bind_run.
    destruct (heap σ !! t) as [[t'| |]|]; try done. rewrite bind_run.
    destruct (storages σ !! t_storage t'); [|done].
    case_decide; [|done]. simpl. by apply I_storages.
  - unfold list_setitem, deref. rewrite bind_run.
    destruct (heap σ !! l) as [[|items|]|] eqn:Hl; try done.
    case_decide; [|done]. simpl. by eapply I_list.
Qed.

Lemma invariant_run p :
  Forall (writes_only writable) p → ∀ σ, I σ → I (run p σ).
Proof.
  induction 1 as [|a p Ha _ IH]; intros σ Hσ; [done|].
  simpl. apply IH. by apply preserves_perform.
Qed.
End invariant.

(** ** Identifiers stay ordered and below the counter *)

Lemma sid_snoc h o l :
  sid (h ++ [o]) l = if decide (l = length h) then sid [o] 0%nat else sid h l.
Proof.
  unfold sid. case_decide as Hl.
  - subst l. by rewrite lookup_snoc.
  - destruct (decide (l < length h)%nat).
    + by rewrite lookup_app_l.
    + rewrite !lookup_ge_None_2; [done|lia|rewrite length_app; simpl; lia].
Qed.

Lemma sid_insert h l o o' l' :
  h !! l = Some o → sid [o'] 0%nat = sid [o] 0%nat →
  sid (<[l := o']> h) l' = sid h l'.
Proof.
  intros Hl Ho. unfold sid in *. destruct (decide (l = l')) as [<-|Hne].
  - rewrite list_lookup_insert_eq by (by eapply lookup_lt_Some).
    rewrite Hl. by simpl in Ho.
  - by rewrite list_lookup_insert_ne.
Qed.

Lemma sid_lt_length h l v : sid h l = Some v → (l < length h)%nat.
Proof.
  unfold sid. destruct (h !! l) eqn:Hl; [|done].
  intros _. by eapply lookup_lt_Some.
Qed.

Lemma ids_ok_same_sid σ σ' :
  (∀ l, sid (heap σ') l = sid (heap σ) l) → id_ σ' = id_ σ →
  ids_ok σ → ids_ok σ'.
Proof.
  intros Hsid Hid [Hb Hi]. split.
  - intros l v. rewrite Hsid, Hid. apply Hb.
  - intros l1 l2 i1 i2. rewrite !Hsid. apply Hi.
Qed.

Lemma ids_ok_initial : ids_ok initial.
Proof. split; intros l; by destruct l. Qed.

Lemma ids_ok_alloc σ o :
  (∀ attrs, o ≠ OSolution attrs) →
  ids_ok σ → ids_ok (State (heap σ ++ [o]) (storages σ) (id_ σ)).
Proof.
  intros Ho. apply ids_ok_same_sid; [|done]. intros l. simpl.
  rewrite sid_snoc. case_decide as Hl; [|done]. subst l.
  unfold sid at 2. rewrite lookup_ge_None_2 by lia.
  destruct o as [| |attrs]; [done..|]. by destruct (Ho attrs).
Qed.

Lemma sid_new i r :
  sid [OSolution (init_attrs i r)] 0%nat = Some (Some (VInt i)).
Proof. reflexivity. Qed.

Lemma ids_ok_new σ r :
  ids_ok σ →
  ids_ok (State (heap σ ++ [OSolution (init_attrs (id_ σ) r)])
                (storages σ) (id_ σ + 1)).
Proof.
  intros [Hb Hi]. split; simpl.
  - intros l v. rewrite sid_snoc, sid_new. case_decide as Hl.
    + intros [= <-]. exists (id_ σ). split; [done|lia].
    + intros Hv. destruct (Hb l v Hv) as (i & -> & ?). exists i.
      split; [done|lia].
  - intros l1 l2 i1 i2 Hlt. rewrite !sid_snoc, !sid_new.
    repeat case_decide; subst; try lia.
    + intros _ H2. apply sid_lt_length in H2. lia.
    + intros H1 [= <-]. destruct (Hb l1 _ H1) as (i & [= <-] & ?). lia.
    + by apply Hi.
Qed.

Lemma ids_ok_setattr σ l attrs a v :
  a ≠ "_id" →
  heap σ !! l = Some (OSolution attrs) →
  ids_ok σ →
  ids_ok (State (<[l := OSolution (<[a := v]> attrs)]> (heap σ))
                (storages σ) (id_ σ)).
Proof.
  intros Ha Hl. apply ids_ok_same_sid; [|done]. intros l'. simpl.
  apply (sid_insert _ _ _ _ _ Hl). unfold sid. simpl.
  by rewrite lookup_insert_ne.
Qed.

Lemma ids_ok_list σ l items items' :
  heap σ !! l = Some (OList items) →
  ids_ok σ →
  ids_ok (State (<[l := OList items']> (heap σ)) (storages σ) (id_ σ)).
Proof.
  intros Hl. apply ids_ok_same_sid; [|done]. intros l'. simpl.
  by apply (sid_insert _ _ _ _ _ Hl).
Qed.

Lemma ids_ok_storages σ st :
  ids_ok σ → ids_ok (State (heap σ) st (id_ σ)).
Proof. by apply ids_ok_same_sid. Qed.

(** Every action that leaves [_id] alone keeps the identifiers in order. *)
Lemma ids_ok_perform a σ : keeps_id a → ids_ok σ → ids_ok (perform a σ).
Proof.
  intros Ha. revert σ.
  apply (preserves_perform ids_ok (λ name, name ≠ "_id"));
    eauto using ids_ok_alloc, ids_ok_new, ids_ok_setattr, ids_ok_list,
      ids_ok_storages.
Qed.

Lemma ids_ok_reachable σ : reachable σ → ids_ok σ.
Proof.
  intros (p & Hp & ->).
  apply (invariant_run ids_ok (λ name, name ≠ "_id"));
    eauto using ids_ok_alloc, ids_ok_new, ids_ok_setattr, ids_ok_list,
      ids_ok_storages, ids_ok_initial.
Qed.

(** ** [valid] and [fit] are always present *)

Lemma has_valid_fit_initial : has_valid_fit initial.
Proof. intros l attrs. by destruct l. Qed.

Lemma has_valid_fit_alloc σ o :
  (∀ attrs, o ≠ OSolution attrs) →
  has_valid_fit σ →
  has_valid_fit (State (heap σ ++ [o]) (storages σ) (id_ σ)).
Proof.
  intros Ho H l attrs. simpl. rewrite lookup_snoc_Some.
  intros [[_ Hl]|[_ ->]]; [by eapply H|by destruct (Ho attrs)].
Qed.

Lemma has_valid_fit_new σ r :
  has_valid_fit σ →
  has_valid_fit (State (heap σ ++ [OSolution (init_attrs (id_ σ) r)])
                       (storages σ) (id_ σ + 1)).
Proof.
  intros H l attrs. simpl. rewrite lookup_snoc_Some.
  intros [[_ Hl]|[_ [= <-]]]; [by eapply H|]. by split; eexists.
Qed.

Lemma has_valid_fit_setattr σ l attrs a v :
  heap σ !! l = Some (OSolution attrs) →
  has_valid_fit σ →
  has_valid_fit (State (<[l := OSolution (<[a := v]> attrs)]> (heap σ))
                       (storages σ) (id_ σ)).
Proof.
  intros Hl H l' attrs'. simpl. rewrite list_lookup_insert_Some.
  intros [(<- & [= <-] & _)|[_ Hl']]; [|by eapply H].
  destruct (H l attrs Hl) as [Hv Hf].
  split; rewrite lookup_insert_is_Some; destruct (decide (a = "valid"));
    destruct (decide (a = "fit")); auto.
Qed.

Lemma has_valid_fit_list σ l items items' :
  heap σ !! l = Some (OList items) →
  has_valid_fit σ →
  has_valid_fit (State (<[l := OList items']> (heap σ)) (storages σ) (id_ σ)).
Proof.
  intros Hl H l' attrs'. simpl. rewrite list_lookup_insert_Some.
  intros [(_ & [=] & _)|[_ Hl']]. by eapply H.
Qed.

Lemma has_valid_fit_perform a σ :
  has_valid_fit σ → has_valid_fit (perform a σ).
Proof.
  revert σ. apply (preserves_perform has_valid_fit (λ _, True));
    eauto using has_valid_fit_alloc, has_valid_fit_new,
      has_valid_fit_setattr, has_valid_fit_list.
  by destruct a.
Qed.

Lemma has_valid_fit_run p σ : has_valid_fit σ → has_valid_fit (run p σ).
Proof.
  revert σ. induction p as [|a p IH]; intros σ Hσ; [done|].
  simpl. apply IH. by apply has_valid_fit_perform.
Qed.

(** ** Reading the store a copy leaves *)

Lemma lookup_mid_old {X} (h rest : list X) l x :
  h !! l = Some x → (h ++ rest) !! l = Some x.
Proof. apply lookup_app_l_Some. Qed.

Lemma lookup_mid_dup (h : list obj) o rest : (h ++ o :: rest) !! length h = Some o.
Proof. by apply list_lookup_middle. Qed.

Lemma lookup_mid_ex (h : list obj) o y ex k :
  (h ++ o :: y :: ex) !! (length h + 2 + k)%nat = ex !! k.
Proof.
  rewrite lookup_app_r by lia.
  by replace (length h + 2 + k - length h)%nat with (S (S k)) by lia.
Qed.

Lemma lookup_new_storage {X} (st sts : list X) j :
  (st ++ sts) !! (length st + j)%nat = sts !! j.
Proof.
  rewrite lookup_app_r by lia. f_equal. lia.
Qed.

Lemma attr_mid_new h o ex st i ac sts a :
  attr (mid h o ex st i ac sts) (S (length h)) a = ac !! a.
Proof. unfold attr, mid. simpl. by rewrite lookup_mid_new. Qed.

Lemma attr_mid_old h o ex st i ac sts s attrs a :
  h !! s = Some (OSolution attrs) →
  attr (mid h o ex st i ac sts) s a = attrs !! a.
Proof.
  intros Hs. unfold attr, mid. simpl. by rewrite (lookup_mid_old _ _ _ _ Hs).
Qed.

(** ** Writing through a tensor *)

Lemma Tensor_setitem_run l i x σ :
  Tensor_setitem l i x σ =
  match heap σ !! l with
  | Some (OTensor t) =>
      match storages σ !! t_storage t with
      | Some d =>
          if decide (i < length d)%nat
          then (Ok (), State (heap σ)
                             (<[t_storage t := <[i := x]> d]> (storages σ))
                             (id_ σ))
          else (Raise "IndexError", σ)
      | None => (Stuck, σ)
      end
  | Some _ => (Raise "TypeError", σ)
  | None => (Stuck, σ)
  end.
Proof.
  unfold Tensor_setitem, deref, read_storage. rewrite bind_run.
  destruct (heap σ !! l) as [[t| |]|]; try done. rewrite bind_run.
  destruct (storages σ !! t_storage t); [|done]. by case_decide.
Qed.

(** A write through one tensor is seen through it, and is not seen through
    a tensor over another storage. *)
Lemma Tensor_setitem_self σ l t d i x :
  heap σ !! l = Some (OTensor t) →
  storages σ !! t_storage t = Some d →
  (i < length d)%nat →
  data_of (Tensor_setitem l i x σ).2 l = Some (<[i := x]> d).
Proof.
  intros Hl Hd Hi. rewrite Tensor_setitem_run, Hl, Hd.
  rewrite decide_True by done. unfold data_of. simpl. rewrite Hl.
  apply list_lookup_insert_eq. by eapply lookup_lt_Some.
Qed.

Lemma Tensor_setitem_other σ l1 l2 t1 t2 i x :
  heap σ !! l1 = Some (OTensor t1) →
  heap σ !! l2 = Some (OTensor t2) →
  t_storage t1 ≠ t_storage t2 →
  data_of (Tensor_setitem l1 i x σ).2 l2 = data_of σ l2.
Proof.
  intros H1 H2 Hne. rewrite Tensor_setitem_run, H1.
  destruct (storages σ !! t_storage t1); [|done].
  case_decide; [|done]. unfold data_of. simpl. rewrite H2.
  by apply list_lookup_insert_ne.
Qed.

Lemma independent_clone_intro σ l l' t t' d :
  heap σ !! l = Some (OTensor t) →
  heap σ !! l' = Some (OTensor t') →
  t_storage t ≠ t_storage t' →
  storages σ !! t_storage t = Some d →
  storages σ !! t_storage t' = Some d →
  independent_clone σ l l' d.
Proof.
  intros Hl Hl' Hne Hd Hd'.
  assert (data_of σ l = Some d) as Hdl by (unfold data_of; by rewrite Hl).
  assert (data_of σ l' = Some d) as Hdl' by (unfold data_of; by rewrite Hl').
  repeat split; try done.
  - intros i x. by rewrite (Tensor_setitem_other _ _ _ _ _ _ _ Hl' Hl).
  - intros i x. by rewrite (Tensor_setitem_other _ _ _ _ _ _ _ Hl Hl').
  - intros i x Hi. by eapply Tensor_setitem_self.
  - intros i x Hi. by eapply Tensor_setitem_self.
Qed.

(** A write into one list leaves every other list as it was. *)
Lemma list_setitem_other σ l1 l2 k v o :
  l1 ≠ l2 → heap σ !! l2 = Some o →
  heap (list_setitem l1 k v σ).2 !! l2 = Some o.
Proof.
  intros Hne H2. unfold list_setitem, deref. rewrite bind_run.
  destruct (heap σ !! l1) as [[|items|]|]; try done.
  case_decide; [|done]. simpl. by rewrite list_lookup_insert_ne.
Qed.

(** * The constructor *)

(** C6: for every representation value passed to the constructor, the new
    solution has its validity flag unset and its fitness unset (both are
    [None]); construction stores the representation as given and touches
    nothing else: no validity check, no evaluation. *)
Theorem constructor_leaves_valid_and_fit_unset r σ :
  ∃ s σ',
    Solution r σ = (Ok s, σ') ∧
    attr σ' s "valid" = Some VNone ∧
    attr σ' s "fit" = Some VNone ∧
    attr σ' s "repr_" = Some r ∧
    take (length (heap σ)) (heap σ') = heap σ ∧
    storages σ' = storages σ.
Proof.
  eexists _, _. split; [apply Solution_run|].
  unfold attr. simpl. rewrite lookup_snoc.
  repeat split; try done. by rewrite take_app_length.
Qed.

Lemma length_constructed i rs : length (constructed i rs) = length rs.
Proof. revert i. induction rs as [|r rs IH]; intros i; simpl; by f_equal. Qed.

Lemma construct_all_run rs σ :
  construct_all rs σ
  = (Ok (seq (length (heap σ)) (length rs)),
     State (heap σ ++ constructed (id_ σ) rs) (storages σ)
           (id_ σ + Z.of_nat (length rs))).
Proof.
  revert σ. induction rs as [|r rs IH]; intros σ.
  - destruct σ. simpl. unfold mret, M_ret. rewrite app_nil_r.
    do 2 f_equal. lia.
  - simpl construct_all. rewrite bind_run, Solution_run, bind_run, IH.
    simpl. rewrite length_app, <- app_assoc. simpl.
    rewrite ret_run.
    replace (length (heap σ) + 1)%nat with (S (length (heap σ))) by lia.
    replace (id_ σ + 1 + Z.of_nat (length rs))
      with (id_ σ + Z.pos (Pos.of_succ_nat (length rs))) by lia.
    reflexivity.
Qed.

Lemma lookup_constructed i rs k r :
  rs !! k = Some r →
  constructed i rs !! k = Some (OSolution (init_attrs (i + Z.of_nat k) r)).
Proof.
  revert i k. induction rs as [|r0 rs IH]; intros i k; [done|].
  destruct k as [|k]; simpl.
  - intros [= ->]. do 3 f_equal. lia.
  - intros Hk. rewrite (IH _ _ Hk). do 3 f_equal. lia.
Qed.

Lemma StronglySorted_seqZ m n : StronglySorted Z.lt (seqZ m n).
Proof.
  destruct (decide (0 ≤ n)) as [Hn|Hn].
  - rewrite <- (Z2Nat.id n Hn). generalize (Z.to_nat n). clear. intros k.
    revert m. induction k as [|k IH]; intros m; [constructor|].
    rewrite seqZ_cons by lia. constructor.
    + replace (Z.pred (Z.of_nat (S k))) with (Z.of_nat k) by lia. apply IH.
    + apply Forall_forall. intros j Hj. apply elem_of_seqZ in Hj. lia.
  - unfold seqZ. replace (Z.to_nat n) with 0%nat by lia. constructor.
Qed.

(** C3: for every sequence of N constructions in a row, from any state,
    every construction returns and the N resulting [_id] values are the
    counter values [id_, id_ + 1, ...]: strictly increasing in construction
    order, hence pairwise distinct. *)
Theorem construction_ids_strictly_increasing rs σ :
  ∃ ss σ' ids,
    construct_all rs σ = (Ok ss, σ') ∧
    length ss = length rs ∧
    id_of σ' <$> ss = Some <$> ids ∧
    ids = seqZ (id_ σ) (Z.of_nat (length rs)) ∧
    StronglySorted Z.lt ids ∧
    NoDup ids.
Proof.
  eexists _, _, _. split; [apply construct_all_run|].
  split; [by rewrite length_seq|].
  split; [|split; [reflexivity|split; [apply StronglySorted_seqZ|apply NoDup_seqZ]]].
  apply list_eq. intros k. rewrite !list_lookup_fmap.
  destruct (decide (k < length rs)%nat) as [Hk|Hk].
  - rewrite lookup_seq_lt by done. rewrite lookup_seqZ_lt by lia. simpl.
    destruct (lookup_lt_is_Some_2 rs k Hk) as [r Hr].
    unfold id_of, attr. simpl.
    rewrite lookup_app_r by lia.
    replace (length (heap σ) + k - length (heap σ))%nat with k by lia.
    by rewrite (lookup_constructed _ _ _ _ Hr).
  - rewrite lookup_seq_ge by lia. by rewrite lookup_seqZ_ge by lia.
Qed.

(** The documented example: [Solution([1,2,3])] has id 0 and length 3,
    [Solution([4,5])] has id 1, and the copy of the first, once evaluated,
    has id 2. *)
Example documented_ids :
  let prog :=
    l1 ← new_list [VInt 1; VInt 2; VInt 3];
    s1 ← Solution (VRef l1);
    l2 ← new_list [VInt 4; VInt 5];
    s2 ← Solution (VRef l2);
    n ← __len__ recursion_limit s1;
    f ← new_tensor "float32" [] [7];
    setattr s1 "fit" (VRef f);;
    c ← _get_copy s1;
    mret (s1, s2, c, n) in
  match prog initial with
  | (Ok (s1, s2, c, n), σ) =>
      id_of σ s1 = Some 0 ∧ id_of σ s2 = Some 1 ∧ id_of σ c = Some 2 ∧ n = 3
  | _ => False
  end.
Proof. vm_compute. done. Qed.

(** * Length *)

Lemma __len___run depth s σ attrs r :
  heap σ !! s = Some (OSolution attrs) →
  attrs !! "repr_" = Some r →
  __len__ depth s σ = py_len depth r σ.
Proof.
  intros Hs Hr. unfold __len__. by rewrite bind_run, getattr_run, Hs, Hr.
Qed.

(** C7: for every representation that is a list or a tensor with a first
    dimension, [len(Solution(seq))] returns the number of elements of [seq]:
    the length of the list, the size of the tensor along its first
    dimension. *)
Theorem len_counts_elements σ l o n depth :
  heap σ !! l = Some o →
  element_count o = Some n →
  ∃ s σ1,
    Solution (VRef l) σ = (Ok s, σ1) ∧
    __len__ depth s σ1 = (Ok n, σ1).
Proof.
  intros Hl Hn. eexists _, _. split; [apply Solution_run|].
  erewrite __len___run; [|apply lookup_snoc|reflexivity].
  set (σ1 := State _ _ _).
  assert (heap σ1 !! l = Some o) as Hl1 by by apply lookup_mid_old.
  destruct depth; simpl; unfold deref; rewrite bind_run, Hl1;
    destruct o as [t|items|attrs]; simpl in Hn; try done;
    try (by injection Hn as <-);
    by destruct (t_shape t); [|injection Hn as <-].
Qed.

Lemma len_counts_elements_witness :
  let σ := (new_list [VInt 1; VInt 2; VInt 3; VInt 4; VInt 5] initial).2 in
  ∃ s σ1,
    Solution (VRef 0%nat) σ = (Ok s, σ1) ∧
    __len__ recursion_limit s σ1 = (Ok 5, σ1).
Proof.
  apply (len_counts_elements _ 0%nat
           (OList [VInt 1; VInt 2; VInt 3; VInt 4; VInt 5])); reflexivity.
Defined.

(** A list of five elements and a tensor of five elements both have
    length 5. *)
Example len_five_list :
  (l ← new_list [VInt 1; VInt 2; VInt 3; VInt 4; VInt 5];
   s ← Solution (VRef l);
   __len__ recursion_limit s) initial
  = (Ok 5, ((new_list [VInt 1; VInt 2; VInt 3; VInt 4; VInt 5]
               ≫= λ l, Solution (VRef l)) initial).2).
Proof. vm_compute. reflexivity. Qed.

Example len_five_tensor :
  (t ← new_tensor "float32" [5%nat] [10; 20; 30; 40; 50];
   s ← Solution (VRef t);
   __len__ recursion_limit s) initial
  = (Ok 5, ((new_tensor "float32" [5%nat] [10; 20; 30; 40; 50]
               ≫= λ t, Solution (VRef t)) initial).2).
Proof. vm_compute. reflexivity. Qed.

(** A solution wrapped in a solution answers through the inner one, one
    frame deeper. *)
Example len_nested_solution :
  ((l ← new_list [VInt 1; VInt 2];
    s ← Solution (VRef l);
    s' ← Solution (VRef s);
    __len__ recursion_limit s') initial).1 = Ok 2.
Proof. vm_compute. reflexivity. Qed.

(** C9, as the code has it: for every solution whose representation has no
    length (an immutable value, a tensor without dimensions), [len] fails
    with Python's own [TypeError] and leaves the state as it was. *)
Theorem len_without_length_raises_TypeError σ s attrs v depth :
  heap σ !! s = Some (OSolution attrs) →
  attrs !! "repr_" = Some v →
  no_len σ v →
  __len__ depth s σ = (Raise "TypeError", σ).
Proof.
  intros Hs Hv Hno. rewrite (__len___run _ _ _ _ _ Hs Hv).
  destruct v as [| | | |l]; try by destruct depth.
  simpl in Hno.
  destruct depth; simpl; unfold deref; rewrite bind_run;
    destruct (heap σ !! l) as [[t| |]|]; try done; by rewrite Hno.
Qed.

Lemma len_without_length_raises_TypeError_witness :
  let σ := ((t ← new_tensor "float32" [] [3]; Solution (VRef t)) initial).2 in
  __len__ recursion_limit 1 σ = (Raise "TypeError", σ).
Proof.
  apply (len_without_length_raises_TypeError _ 1%nat
           (init_attrs 0 (VRef 0%nat)) (VRef 0%nat)); reflexivity.
Defined.

(** C9, as stated, fails: the length of a solution over a tensor without
    dimensions raises [TypeError], not [UnsupportedRepresentationError]. *)
Lemma len_error_is_not_UnsupportedRepresentationError :
  let σ := ((t ← new_tensor "float32" [] [3]; Solution (VRef t)) initial).2 in
  (__len__ recursion_limit 1 σ).1 = Raise "TypeError" ∧
  (__len__ recursion_limit 1 σ).1 ≠ Raise "UnsupportedRepresentationError".
Proof. split; [by vm_compute|]. vm_compute. discriminate. Qed.

(** * The copy *)

(** C10: in every state a program reaches, whatever it assigns, every
    solution has the attributes [valid] and [fit] (the constructor binds
    both to [None]), every action keeps it so, and the [hasattr] guards of
    [_get_copy] for [valid] and [fit] therefore answer [True]. *)
Theorem valid_and_fit_always_present σ :
  reachable_anyhow σ →
  has_valid_fit σ ∧
  (∀ a, has_valid_fit (perform a σ)) ∧
  (∀ r, attr (Solution r σ).2 (length (heap σ)) "valid" = Some VNone ∧
        attr (Solution r σ).2 (length (heap σ)) "fit" = Some VNone) ∧
  (∀ s attrs,
     heap σ !! s = Some (OSolution attrs) →
     hasattr s "valid" σ = (Ok true, σ) ∧ hasattr s "fit" σ = (Ok true, σ)).
Proof.
  intros [p ->].
  assert (has_valid_fit (run p initial)) as H
    by apply has_valid_fit_run, has_valid_fit_initial.
  split; [done|]. split; [intros a; by apply has_valid_fit_perform|].
  split.
  { intros r. rewrite Solution_run. unfold attr. simpl.
    by rewrite lookup_snoc. }
  intros s attrs Hs. destruct (H s attrs Hs) as [Hv Hf].
  rewrite !hasattr_run, Hs. by rewrite !bool_decide_eq_true_2.
Qed.

Lemma valid_and_fit_always_present_witness :
  let σ := run [ANewList [VInt 1; VInt 2]; ANew (VRef 0%nat); ACopy 1%nat]
               initial in
  has_valid_fit σ ∧
  (∀ a, has_valid_fit (perform a σ)) ∧
  (∀ r, attr (Solution r σ).2 (length (heap σ)) "valid" = Some VNone ∧
        attr (Solution r σ).2 (length (heap σ)) "fit" = Some VNone) ∧
  (∀ s attrs,
     heap σ !! s = Some (OSolution attrs) →
     hasattr s "valid" σ = (Ok true, σ) ∧ hasattr s "fit" σ = (Ok true, σ)).
Proof.
  apply valid_and_fit_always_present. eexists. reflexivity.
Defined.

(** C4: in every state a program reaches without assigning [_id], a copy
    that returns is a new object whose [_id] is the counter value at the
    call: larger than the [_id] of every solution there was, the original
    included, which keeps its own. *)
Theorem copy_has_fresh_id σ s c σ' :
  reachable σ →
  _get_copy s σ = (Ok c, σ') →
  c ≠ s ∧
  ∃ i j,
    id_of σ s = Some i ∧ id_of σ' s = Some i ∧ id_of σ' c = Some j ∧
    j = id_ σ ∧ i ≠ j ∧
    (∀ l k, id_of σ l = Some k → k < j).
Proof.
  intros Hreach H. apply ids_ok_reachable in Hreach as [Hb _].
  apply _get_copy_Ok in H
    as (attrs & lr & o & ac & ex & sts & Hs & _ & -> & -> & _ & Hid & _).
  assert (∀ l k, id_of σ l = Some k → k < id_ σ) as Hlt.
  { intros l k. unfold id_of, attr. specialize (Hb l). unfold sid in Hb.
    destruct (heap σ !! l) as [[| |a]|]; try done.
    destruct (Hb _ eq_refl) as (i & -> & ?). by intros [= <-]. }
  assert (∃ i, attrs !! "_id" = Some (VInt i)) as [i Hi].
  { specialize (Hb s). unfold sid in Hb. rewrite Hs in Hb.
    destruct (Hb _ eq_refl) as (i & ? & _). eauto. }
  assert (id_of σ s = Some i) as Hsi
    by (unfold id_of, attr; by rewrite Hs, Hi).
  split; [apply lookup_lt_Some in Hs; lia|].
  exists i, (id_ σ).
  split; [done|].
  split; [unfold id_of; by rewrite (attr_mid_old _ _ _ _ _ _ _ _ _ _ Hs), Hi|].
  split; [unfold id_of; by rewrite attr_mid_new, Hid|].
  split; [done|]. split; [|done].
  apply Hlt in Hsi. lia.
Qed.

Lemma evaluated_reachable : reachable evaluated.
Proof. eexists. split; [|reflexivity]. by repeat constructor. Qed.

Lemma copy_has_fresh_id_witness :
  4%nat ≠ 1%nat ∧
  ∃ i j,
    id_of evaluated 1%nat = Some i ∧
    id_of (_get_copy 1%nat evaluated).2 1%nat = Some i ∧
    id_of (_get_copy 1%nat evaluated).2 4%nat = Some j ∧
    j = id_ evaluated ∧ i ≠ j ∧
    (∀ l k, id_of evaluated l = Some k → k < j).
Proof.
  apply (copy_has_fresh_id evaluated 1%nat 4%nat (_get_copy 1%nat evaluated).2).
  - eexists. split; [|reflexivity]. repeat constructor; done.
  - vm_compute. reflexivity.
Defined.

(** C5: when a copy returns, its representation is a new object. Over a
    tensor it is a tensor of the same shape and element type holding the
    same elements over a storage of its own: a write through either tensor
    shows through that one and not through the other. Over a list it is a
    new list of the same items, the very references the original holds,
    and assigning an item of either list leaves the other list as it was. *)
Theorem copy_duplicates_representation σ s c σ' lr :
  _get_copy s σ = (Ok c, σ') →
  attr σ s "repr_" = Some (VRef lr) →
  ∃ lr',
    attr σ' c "repr_" = Some (VRef lr') ∧ lr' ≠ lr ∧
    attr σ' s "repr_" = Some (VRef lr) ∧
    (∀ t, heap σ !! lr = Some (OTensor t) →
       ∃ t' d,
         heap σ' !! lr = Some (OTensor t) ∧
         heap σ' !! lr' = Some (OTensor t') ∧
         t_shape t' = t_shape t ∧ t_dtype t' = t_dtype t ∧
         data_of σ lr = Some d ∧
         independent_clone σ' lr lr' d) ∧
    (∀ items, heap σ !! lr = Some (OList items) →
       heap σ' !! lr = Some (OList items) ∧
       heap σ' !! lr' = Some (OList items) ∧
       (∀ k v, heap (list_setitem lr' k v σ').2 !! lr = Some (OList items)) ∧
       (∀ k v, heap (list_setitem lr k v σ').2 !! lr' = Some (OList items))).
Proof.
  intros H Hr.
  apply _get_copy_Ok in H
    as (attrs & lr0 & o & ac & ex & sts & Hs & Hr0 & -> & -> & Hcopied
        & _ & Hrepr & _).
  unfold attr in Hr. rewrite Hs, Hr0 in Hr. injection Hr as ->.
  assert (lr < length (heap σ))%nat as Hlt.
  { unfold repr_copied in Hcopied.
    destruct (heap σ !! lr) eqn:Hlr; [by eapply lookup_lt_Some|done]. }
  exists (length (heap σ)).
  split; [by rewrite attr_mid_new|]. split; [lia|].
  split; [by rewrite (attr_mid_old _ _ _ _ _ _ _ _ _ _ Hs)|].
  unfold repr_copied in Hcopied. split.
  - intros t Ht. rewrite Ht in Hcopied.
    destruct Hcopied as (d & Hd & -> & Hsts).
    eexists _, d.
    assert (heap (mid (heap σ) (OTensor (Tensor (t_dtype t) (t_shape t)
                (length (storages σ)))) ex (storages σ) (id_ σ + 1) ac sts)
              !! lr = Some (OTensor t)) as Hlr'
      by by apply lookup_mid_old.
    split; [done|]. split; [apply lookup_mid_dup|].
    split; [done|]. split; [done|].
    split; [unfold data_of; by rewrite Ht|].
    eapply independent_clone_intro; [exact Hlr'|apply lookup_mid_dup|..].
    + simpl. apply lookup_lt_Some in Hd. lia.
    + by apply lookup_mid_old.
    + simpl. rewrite <- (Nat.add_0_r (length (storages σ))).
      by rewrite lookup_new_storage.
  - intros items Hitems. rewrite Hitems in Hcopied. subst o.
    assert (heap (mid (heap σ) (OList items) ex (storages σ) (id_ σ + 1)
                      ac sts) !! lr = Some (OList items)) as Hlr'
      by by apply lookup_mid_old.
    split; [done|]. split; [apply lookup_mid_dup|].
    split; intros k v; apply list_setitem_other;
      [lia|done|lia|apply lookup_mid_dup].
Qed.

Lemma copy_duplicates_representation_witness :
  ∃ lr',
    attr (_get_copy 1%nat evaluated_tensor).2 4%nat "repr_" = Some (VRef lr') ∧
    lr' ≠ 0%nat ∧
    attr (_get_copy 1%nat evaluated_tensor).2 1%nat "repr_"
      = Some (VRef 0%nat) ∧
    (∀ t, heap evaluated_tensor !! 0%nat = Some (OTensor t) →
       ∃ t' d,
         heap (_get_copy 1%nat evaluated_tensor).2 !! 0%nat
           = Some (OTensor t) ∧
         heap (_get_copy 1%nat evaluated_tensor).2 !! lr'
           = Some (OTensor t') ∧
         t_shape t' = t_shape t ∧ t_dtype t' = t_dtype t ∧
         data_of evaluated_tensor 0%nat = Some d ∧
         independent_clone (_get_copy 1%nat evaluated_tensor).2 0%nat lr' d) ∧
    (∀ items, heap evaluated_tensor !! 0%nat = Some (OList items) →
       heap (_get_copy 1%nat evaluated_tensor).2 !! 0%nat
         = Some (OList items) ∧
       heap (_get_copy 1%nat evaluated_tensor).2 !! lr' = Some (OList items) ∧
       (∀ k v, heap (list_setitem lr' k v
                       (_get_copy 1%nat evaluated_tensor).2).2 !! 0%nat
               = Some (OList items)) ∧
       (∀ k v, heap (list_setitem 0%nat k v
                       (_get_copy 1%nat evaluated_tensor).2).2 !! lr'
               = Some (OList items))).
Proof.
  apply (copy_duplicates_representation evaluated_tensor 1%nat 4%nat
           (_get_copy 1%nat evaluated_tensor).2 0%nat).
  - vm_compute. reflexivity.
  - vm_compute. reflexivity.
Defined.

(** C8: when the fitness of a solution is a tensor and its copy returns,
    the fitness of the copy is a new tensor of the same shape and element
    type holding the same elements over a storage of its own: a write
    through either fitness shows through that one and not through the
    other. *)
Theorem copy_clones_fitness σ s c σ' lf t d :
  _get_copy s σ = (Ok c, σ') →
  attr σ s "fit" = Some (VRef lf) →
  heap σ !! lf = Some (OTensor t) →
  storages σ !! t_storage t = Some d →
  ∃ lf' t',
    attr σ' c "fit" = Some (VRef lf') ∧ lf' ≠ lf ∧
    attr σ' s "fit" = Some (VRef lf) ∧
    heap σ' !! lf = Some (OTensor t) ∧
    heap σ' !! lf' = Some (OTensor t') ∧
    t_shape t' = t_shape t ∧ t_dtype t' = t_dtype t ∧
    independent_clone σ' lf lf' d.
Proof.
  intros H Hf Ht Hd.
  apply _get_copy_Ok in H
    as (attrs & lr & o & ac & ex & sts & Hs & _ & -> & -> & _ & _ & _ & _
        & _ & _ & _ & _ & _ & Hfit).
  unfold attr in Hf. rewrite Hs in Hf.
  destruct (Hfit lf t d Hf Ht Hd) as (k & j & Hacfit & Hex & Hsts).
  set (σ' := mid _ _ _ _ _ _ _).
  assert (heap σ' !! lf = Some (OTensor t)) as Hlf by by apply lookup_mid_old.
  assert (heap σ' !! (length (heap σ) + 2 + k)%nat
          = Some (OTensor (Tensor (t_dtype t) (t_shape t)
                                  (length (storages σ) + j)))) as Hlf'
    by (unfold σ', mid; simpl; by rewrite lookup_mid_ex).
  eexists _, _.
  split; [unfold σ'; by rewrite attr_mid_new|].
  split; [apply lookup_lt_Some in Ht; lia|].
  split; [unfold σ'; by rewrite (attr_mid_old _ _ _ _ _ _ _ _ _ _ Hs)|].
  split; [done|]. split; [done|]. split; [done|]. split; [done|].
  eapply independent_clone_intro; [exact Hlf|exact Hlf'|..].
  - simpl. apply lookup_lt_Some in Hd. lia.
  - by apply lookup_mid_old.
  - unfold σ', mid. simpl. by rewrite lookup_new_storage.
Qed.

Lemma copy_clones_fitness_witness :
  ∃ lf' t',
    attr (_get_copy 1%nat evaluated).2 4%nat "fit" = Some (VRef lf') ∧
    lf' ≠ 2%nat ∧
    attr (_get_copy 1%nat evaluated).2 1%nat "fit" = Some (VRef 2%nat) ∧
    heap (_get_copy 1%nat evaluated).2 !! 2%nat
      = Some (OTensor (Tensor "float32" [] 0)) ∧
    heap (_get_copy 1%nat evaluated).2 !! lf' = Some (OTensor t') ∧
    t_shape t' = [] ∧ t_dtype t' = "float32" ∧
    independent_clone (_get_copy 1%nat evaluated).2 2%nat lf' [7].
Proof.
  apply (copy_clones_fitness evaluated 1%nat 4%nat
           (_get_copy 1%nat evaluated).2 2%nat (Tensor "float32" [] 0) [7]).
  - vm_compute. reflexivity.
  - vm_compute. reflexivity.
  - reflexivity.
  - reflexivity.
Defined.

(** The items of a copied list are shared: a list inside the
    representation is the same object for the original and the copy, so a
    write into it through the copy shows through the original. *)
Example copied_list_shares_its_items :
  let prog :=
    inner ← new_list [VInt 1];
    outer ← new_list [VRef inner];
    s ← Solution (VRef outer);
    f ← new_tensor "float32" [] [7];
    setattr s "fit" (VRef f);;
    c ← _get_copy s;
    r ← getattr s "repr_";
    r' ← getattr c "repr_";
    items ← match r with VRef l => list_items l | _ => raise "TypeError" end;
    items' ← match r' with VRef l => list_items l | _ => raise "TypeError" end;
    match items' with
    | [VRef l] => list_setitem l 0 (VInt 9)
    | _ => raise "TypeError"
    end;;
    seen ← match items with
           | [VRef l] => list_items l
           | _ => raise "TypeError"
           end;
    mret (r, r', items, items', seen) in
  (prog initial).1
  = Ok (VRef 1%nat, VRef 4%nat, [VRef 0%nat], [VRef 0%nat], [VInt 9]).
Proof. vm_compute. reflexivity. Qed.

(** C1: [Solution([1, 2, 3])._get_copy()] raises [AttributeError]: [fit]
    is present and [None], and [None] has no [clone]. *)
Theorem copy_of_unevaluated_solution_raises :
  ((l ← new_list [VInt 1; VInt 2; VInt 3];
    s ← Solution (VRef l);
    _get_copy s) initial).1 = Raise "AttributeError".
Proof. vm_compute. reflexivity. Qed.

(** No copy of a solution that was just constructed returns, whatever the
    representation and the state: a returning copy needs a fitness that is
    a reference. *)
Lemma copy_needs_fitness σ s c σ' f :
  _get_copy s σ = (Ok c, σ') →
  attr σ s "fit" = Some f → ∃ lf, f = VRef lf.
Proof.
  intros H.
  apply _get_copy_Ok in H
    as (attrs & lr & o & ac & ex & sts & Hs & _ & _ & _ & _ & _ & _ & _
        & _ & Href & _).
  unfold attr. rewrite Hs. apply Href.
Qed.

Lemma copy_of_new_solution_never_returns r σ c σ' :
  (s ← Solution r; _get_copy s) σ ≠ (Ok c, σ').
Proof.
  intros H. rewrite bind_run, Solution_run in H.
  destruct (copy_needs_fitness _ _ _ _ VNone H) as [lf Hlf]; [|done].
  unfold attr. simpl. by rewrite lookup_snoc.
Qed.

(** When a copy returns it has no [test_fit], and it has [val_fit] only if
    the original had [test_fit]; an original with [test_fit] had a
    [val_fit] too. *)
Lemma copy_validation_fitness σ s c σ' :
  _get_copy s σ = (Ok c, σ') →
  attr σ' c "test_fit" = None ∧
  (attr σ s "test_fit" = None → attr σ' c "val_fit" = None) ∧
  (is_Some (attr σ s "test_fit") → ∃ lv, attr σ s "val_fit" = Some (VRef lv)).
Proof.
  intros H.
  apply _get_copy_Ok in H
    as (attrs & lr & o & ac & ex & sts & Hs & _ & -> & -> & _ & _ & _ & _
        & _ & _ & Hval & Hnone & Htest & _).
  rewrite !attr_mid_new. unfold attr. by rewrite Hs.
Qed.

(** C2: the guard of the last clone tests [test_fit] and its body reads
    [val_fit]. A solution with fitness and [test_fit] set cannot be copied:
    [AttributeError]. A solution with fitness and [val_fit] set is copied
    without its [val_fit]. Only a solution with both has the clone of
    [val_fit] on its copy, and no copy ever has [test_fit]. *)
Theorem copy_validation_fitness_mismatch :
  let evaluated_with (names : list string) : M loc :=
    l ← new_list [VInt 1; VInt 2; VInt 3];
    s ← Solution (VRef l);
    f ← new_tensor "float32" [] [7];
    setattr s "fit" (VRef f);;
    foldr (λ name k,
             v ← new_tensor "float32" [] [8];
             setattr s name (VRef v);; k) (mret s) names in
  let copied names :=
    (s ← evaluated_with names; c ← _get_copy s;
     vf ← hasattr c "val_fit"; tf ← hasattr c "test_fit";
     mret (vf, tf)) initial in
  (copied ["test_fit"]).1 = Raise "AttributeError" ∧
  (copied ["val_fit"]).1 = Ok (false, false) ∧
  (copied ["test_fit"; "val_fit"]).1 = Ok (true, false) ∧
  (copied []).1 = Ok (false, false).
Proof. vm_compute. done. Qed.

(** * Further properties of the copy *)

(** ** A logic for computations *)

Section hoare_rules.
Context {A B : Type}.
Implicit Types (P : state → Prop) (F : option string → state → Prop).

Lemma hoare_ret (Q : A → state → Prop) F a : hoare (Q a) (mret a) Q F.
Proof. by intros σ. Qed.

Lemma hoare_bind P (m : M A) (f : A → M B) Q Q' F :
  hoare P m Q F → (∀ a, hoare (Q a) (f a) Q' F) → hoare P (m ≫= f) Q' F.
Proof.
  intros Hm Hf σ Hσ. rewrite bind_run. specialize (Hm σ Hσ).
  destruct (m σ) as [[a|e|] σ1]; [by apply Hf|done..].
Qed.

Lemma hoare_post P (m : M A) (Q Q' : A → state → Prop) F :
  (∀ a σ, Q a σ → Q' a σ) → hoare P m Q F → hoare P m Q' F.
Proof.
  intros HQ Hm σ Hσ. specialize (Hm σ Hσ).
  destruct (m σ) as [[a|e|] σ1]; [by apply HQ|done..].
Qed.

Lemma hoare_pure P (φ : Prop) (m : M A) Q F :
  (φ → hoare P m Q F) → hoare (λ σ, P σ ∧ φ) m Q F.
Proof. intros Hm σ [Hσ Hφ]. by apply Hm. Qed.

Lemma hoare_if P (b : bool) (m1 m2 : M A) Q F :
  hoare P m1 Q F → hoare P m2 Q F → hoare P (if b then m1 else m2) Q F.
Proof. by destruct b. Qed.
End hoare_rules.

(** ** The copy only adds to the store *)

Section frame.
Variable σ0 : state.
Variable k : Z.
Hypothesis k_01 : k = 0 ∨ k = 1.

Lemma grown_failed σ e :
  grown σ0 k σ → e = None ∨ e = Some "AttributeError" → copy_failed σ0 e σ.
Proof. intros H He. split; [|done]. destruct k_01 as [-> | ->]; auto. Qed.

Lemma grown_alloc σ o :
  grown σ0 k σ → grown σ0 k (State (heap σ ++ [o]) (storages σ) (id_ σ)).
Proof.
  intros (Hh & Hs & Hi). split; [by apply prefix_app_r|done].
Qed.

Lemma grown_alloc_storage σ d :
  grown σ0 k σ → grown σ0 k (State (heap σ) (storages σ ++ [d]) (id_ σ)).
Proof.
  intros (Hh & Hs & Hi). split; [done|]. split; [by apply prefix_app_r|done].
Qed.

Lemma grown_store σ l o :
  (length (heap σ0) ≤ l)%nat →
  grown σ0 k σ → grown σ0 k (State (<[l := o]> (heap σ)) (storages σ) (id_ σ)).
Proof.
  intros Hl ([rest Hh] & Hs & Hi). split; [|done]. simpl. rewrite Hh.
  rewrite insert_app_r_alt by done. by eexists.
Qed.

Lemma hoare_getattr l a :
  hoare (grown σ0 k) (getattr l a) (λ _, grown σ0 k) (copy_failed σ0).
Proof.
  intros σ Hσ. rewrite getattr_run.
  destruct (heap σ !! l) as [[| |attrs]|];
    try (apply grown_failed; by auto).
  destruct (attrs !! a); [done|apply grown_failed; by auto].
Qed.

Lemma hoare_hasattr l a :
  hoare (grown σ0 k) (hasattr l a) (λ _, grown σ0 k) (copy_failed σ0).
Proof.
  intros σ Hσ. rewrite hasattr_run.
  destruct (heap σ !! l) as [[| |attrs]|]; try done.
  apply grown_failed; by auto.
Qed.

Lemma hoare_type_is_Tensor v :
  hoare (grown σ0 k) (type_is_Tensor v) (λ _, grown σ0 k) (copy_failed σ0).
Proof.
  intros σ Hσ. rewrite type_is_Tensor_run.
  destruct v as [| | | |l]; try done.
  destruct (heap σ !! l) as [[| |attrs]|]; try done.
  apply grown_failed; by auto.
Qed.

Lemma hoare_call_clone v :
  hoare (grown σ0 k) (call_clone v) (λ _, grown σ0 k) (copy_failed σ0).
Proof.
  intros σ Hσ. rewrite call_clone_run.
  destruct v as [| | | |l]; try (apply grown_failed; by auto).
  destruct (heap σ !! l) as [[t| |attrs]|];
    try (apply grown_failed; by auto).
  destruct (storages σ !! t_storage t) as [d|];
    [|apply grown_failed; by auto].
  apply (grown_alloc (State (heap σ) (storages σ ++ [d]) (id_ σ))).
  by apply grown_alloc_storage.
Qed.

Lemma hoare_call_copy v :
  hoare (grown σ0 k) (call_copy v) (λ _, grown σ0 k) (copy_failed σ0).
Proof.
  intros σ Hσ. rewrite call_copy_run.
  destruct v as [| | | |l]; try (apply grown_failed; by auto).
  destruct (heap σ !! l) as [[|items|attrs]|];
    try (apply grown_failed; by auto).
  by apply grown_alloc.
Qed.

Lemma hoare_setattr l a v :
  (length (heap σ0) ≤ l)%nat →
  hoare (grown σ0 k) (setattr l a v) (λ _, grown σ0 k) (copy_failed σ0).
Proof.
  intros Hl σ Hσ. rewrite setattr_run.
  destruct (heap σ !! l) as [[| |attrs]|];
    try (apply grown_failed; by auto).
  by apply grown_store.
Qed.
End frame.

Lemma hoare_Solution σ0 r :
  hoare (grown σ0 0) (Solution r)
        (λ c σ, grown σ0 1 σ ∧ (length (heap σ0) ≤ c)%nat) (copy_failed σ0).
Proof.
  intros σ (Hh & Hs & Hi). rewrite Solution_run. split.
  - split; [by apply prefix_app_r|]. split; [done|]. simpl. lia.
  - by apply prefix_length.
Qed.

(** From the state [σ0], a copy that returns has added to the store and
    moved the counter by one; a copy that fails has added to the store and
    moved the counter by one at most, and fails with [AttributeError]. *)
Lemma hoare__get_copy σ0 s :
  hoare (grown σ0 0) (_get_copy s)
        (λ c σ, grown σ0 1 σ ∧ (length (heap σ0) ≤ c)%nat) (copy_failed σ0).
Proof.
  unfold _get_copy.
  eapply hoare_bind; [apply hoare_getattr; auto|intros r; simpl].
  eapply hoare_bind; [apply hoare_type_is_Tensor; auto|intros is_t; simpl].
  eapply hoare_bind.
  { apply hoare_if.
    - eapply hoare_bind; [apply hoare_getattr; auto|intros r'; simpl].
      eapply hoare_bind; [apply hoare_call_clone; auto|intros c'; simpl].
      apply hoare_Solution.
    - eapply hoare_bind; [apply hoare_getattr; auto|intros r'; simpl].
      eapply hoare_bind; [apply hoare_call_copy; auto|intros c'; simpl].
      apply hoare_Solution. }
  intros c. simpl. apply hoare_pure. intros Hc.
  eapply hoare_bind; [apply hoare_hasattr; auto|intros hv; simpl].
  eapply hoare_bind.
  { apply hoare_if.
    - eapply hoare_bind; [apply hoare_getattr; auto|intros v; simpl].
      apply hoare_setattr; auto.
    - apply (hoare_ret (λ _, grown σ0 1)). }
  intros []. simpl.
  eapply hoare_bind; [apply hoare_hasattr; auto|intros hf; simpl].
  eapply hoare_bind.
  { apply hoare_if.
    - eapply hoare_bind; [apply hoare_getattr; auto|intros v; simpl].
      eapply hoare_bind; [apply hoare_call_clone; auto|intros c'; simpl].
      apply hoare_setattr; auto.
    - apply (hoare_ret (λ _, grown σ0 1)). }
  intros []. simpl.
  eapply hoare_bind; [apply hoare_hasattr; auto|intros ht; simpl].
  eapply hoare_bind.
  { apply hoare_if.
    - eapply hoare_bind; [apply hoare_getattr; auto|intros v; simpl].
      eapply hoare_bind; [apply hoare_call_clone; auto|intros c'; simpl].
      apply hoare_setattr; auto.
    - apply (hoare_ret (λ _, grown σ0 1)). }
  intros []. simpl.
  intros σ Hσ. done.
Qed.

Lemma grown_refl σ : grown σ 0 σ.
Proof. split; [done|]. split; [done|]. lia. Qed.

(** X1: whatever a copy does — return, raise, or stop on a reference
    outside the store — every object and every tensor storage there was
    before the call is still there, unchanged and at the same place, and
    the counter has moved by one at most. *)
Theorem copy_only_adds_to_the_store s σ :
  heap σ `prefix_of` heap (_get_copy s σ).2 ∧
  storages σ `prefix_of` storages (_get_copy s σ).2 ∧
  (id_ (_get_copy s σ).2 = id_ σ ∨ id_ (_get_copy s σ).2 = id_ σ + 1).
Proof.
  pose proof (hoare__get_copy σ s σ (grown_refl σ)) as H.
  destruct (_get_copy s σ) as [[c|e|] σ']; simpl.
  - destruct H as [(Hh & Hs & Hi) _]. auto.
  - destruct H as [[(Hh & Hs & Hi)|(Hh & Hs & Hi)] _];
      (split; [done|]); (split; [done|]); [left|right]; lia.
  - destruct H as [[(Hh & Hs & Hi)|(Hh & Hs & Hi)] _];
      (split; [done|]); (split; [done|]); [left|right]; lia.
Qed.

(** X2: the only exception a copy raises is [AttributeError]. *)
Theorem copy_raises_only_AttributeError s σ e σ' :
  _get_copy s σ = (Raise e, σ') → e = "AttributeError".
Proof.
  intros H. pose proof (hoare__get_copy σ s σ (grown_refl σ)) as Hc.
  rewrite H in Hc. destruct Hc as [_ [[=]|[= ->]]]. done.
Qed.

Lemma copy_raises_only_AttributeError_witness :
  "AttributeError" = "AttributeError".
Proof.
  apply (copy_raises_only_AttributeError 1%nat
           (run [ANewList [VInt 1; VInt 2]; ANew (VRef 0%nat)] initial)
           "AttributeError"
           (_get_copy 1%nat
              (run [ANewList [VInt 1; VInt 2]; ANew (VRef 0%nat)] initial)).2).
  vm_compute. reflexivity.
Defined.

(** X3: a solution whose representation is neither a tensor nor a list —
    an immutable value such as a number or [None], or another solution —
    cannot be copied: [AttributeError], before anything is built; the store
    and the counter are as they were. *)
Theorem copy_without_copy_method_raises σ s attrs v :
  heap σ !! s = Some (OSolution attrs) →
  attrs !! "repr_" = Some v →
  no_copy σ v →
  _get_copy s σ = (Raise "AttributeError", σ).
Proof.
  intros Hs Hv Hno. unfold _get_copy.
  rewrite bind_run, getattr_run, Hs, Hv.
  rewrite bind_run, type_is_Tensor_run.
  assert (call_copy v σ = (Raise "AttributeError", σ)) as Hcopy.
  { rewrite call_copy_run. destruct v as [| | | |l]; try done.
    simpl in Hno. by destruct (heap σ !! l) as [[| |]|]. }
  destruct v as [| | | |l];
    try (by rewrite bind_run, bind_run, getattr_run, Hs, Hv, bind_run, Hcopy).
  simpl in Hno. destruct (heap σ !! l) as [[| |]|] eqn:Hl; try done.
  by rewrite bind_run, bind_run, getattr_run, Hs, Hv, bind_run, Hcopy.
Qed.

Lemma copy_without_copy_method_raises_witness :
  let σ := (Solution (VInt 5) initial).2 in
  _get_copy 0%nat σ = (Raise "AttributeError", σ).
Proof.
  apply (copy_without_copy_method_raises _ 0%nat
           (init_attrs 0 (VInt 5)) (VInt 5)); done.
Defined.

(** X4: a copy that returns carries the validity flag of the original,
    whatever it is, and the original keeps it. *)
Theorem copy_carries_valid σ s c σ' v :
  _get_copy s σ = (Ok c, σ') →
  attr σ s "valid" = Some v →
  attr σ' c "valid" = Some v ∧ attr σ' s "valid" = Some v.
Proof.
  intros H Hv.
  apply _get_copy_Ok in H
    as (attrs & lr & o & ac & ex & sts & Hs & _ & -> & -> & _ & _ & _
        & Hvalid & _).
  unfold attr in Hv. rewrite Hs in Hv.
  rewrite attr_mid_new, (attr_mid_old _ _ _ _ _ _ _ _ _ _ Hs), Hvalid, Hv.
  done.
Qed.

Lemma copy_carries_valid_witness :
  let σ := perform (ASetattr 1%nat "valid" (VBool true)) evaluated in
  attr (_get_copy 1%nat σ).2 4%nat "valid" = Some (VBool true) ∧
  attr (_get_copy 1%nat σ).2 1%nat "valid" = Some (VBool true).
Proof.
  apply (copy_carries_valid
           (perform (ASetattr 1%nat "valid" (VBool true)) evaluated)
           1%nat 4%nat).
  - vm_compute. reflexivity.
  - vm_compute. reflexivity.
Defined.

(** X5: a copy that returns carries [_id], [repr_], [valid], [fit] and
    [val_fit] at most: no other attribute of the original is on it. *)
Theorem copy_carries_no_other_attribute σ s c σ' a :
  _get_copy s σ = (Ok c, σ') →
  a ∉ ["_id"; "repr_"; "valid"; "fit"; "val_fit"] →
  attr σ' c a = None.
Proof.
  intros H Ha.
  apply _get_copy_Ok_full in H
    as (attrs & lr & o & ac & ex & sts & Hac & _ & _ & -> & -> & _).
  rewrite !not_elem_of_cons in Ha.
  destruct Ha as (? & ? & ? & ? & ? & _).
  rewrite attr_mid_new, Hac by done.
  unfold init_attrs. by rewrite !lookup_insert_ne.
Qed.

Lemma copy_carries_no_other_attribute_witness :
  let σ := perform (ASetattr 1%nat "label" (VInt 3)) evaluated in
  attr (_get_copy 1%nat σ).2 4%nat "label" = None.
Proof.
  apply (copy_carries_no_other_attribute
           (perform (ASetattr 1%nat "label" (VInt 3)) evaluated)
           1%nat 4%nat).
  - vm_compute. reflexivity.
  - rewrite !not_elem_of_cons. repeat split; try done. apply not_elem_of_nil.
Defined.

Lemma data_of_mid_old σ o ex i ac sts l d :
  data_of σ l = Some d →
  data_of (mid (heap σ) o ex (storages σ) i ac sts) l = Some d.
Proof.
  unfold data_of, mid. simpl.
  destruct (heap σ !! l) as [[t| |]|] eqn:Hl; try done. intros Hd.
  by rewrite (lookup_mid_old _ _ _ _ Hl), (lookup_mid_old _ _ _ _ Hd).
Qed.

(** X6: an evaluated solution without [test_fit] can be copied: the copy
    returns, takes the counter value as its [_id] and moves the counter by
    one; the copy is itself an evaluated solution without [test_fit], and
    the original still is, so both can be copied again. *)
Theorem evaluated_solution_copies σ s :
  copyable σ s →
  ∃ c σ',
    _get_copy s σ = (Ok c, σ') ∧
    copyable σ' c ∧ copyable σ' s ∧
    id_of σ' c = Some (id_ σ) ∧ id_ σ' = id_ σ + 1.
Proof.
  intros Hcopyable.
  destruct (_get_copy_returns σ s Hcopyable) as [σ' H].
  exists (S (length (heap σ))), σ'. split; [done|].
  destruct Hcopyable as (attrs & lr & lf & Hs & Hr & Hlr & Hf & Hlf & Htest).
  apply _get_copy_Ok in H
    as (attrs' & lr' & o & ac & ex & sts & Hs' & Hr' & _ & -> & Hcopied
        & Hid & Hrepr & _ & _ & _ & _ & _ & Hactest & Hfit).
  rewrite Hs in Hs'. injection Hs' as <-.
  rewrite Hr in Hr'. injection Hr' as <-.
  assert (∃ t d, heap σ !! lf = Some (OTensor t) ∧
                 storages σ !! t_storage t = Some d) as (t & d & Ht & Hd).
  { unfold data_of in Hlf. destruct (heap σ !! lf) as [[t| |]|]; try by
      destruct Hlf.
    destruct Hlf as [d Hd]. eauto. }
  destruct (Hfit lf t d Hf Ht Hd) as (k & j & Hacfit & Hex & Hsts).
  split; [|split; [|split]].
  - exists ac, (length (heap σ)), (length (heap σ) + 2 + k)%nat.
    split; [apply lookup_mid_new|]. split; [done|].
    split.
    { unfold repr_copied in Hcopied. unfold data_of, mid. simpl.
      rewrite lookup_mid_dup.
      destruct (heap σ !! lr) as [[tr|items|]|]; try done.
      - destruct Hcopied as (dr & _ & -> & Hdr). left. simpl.
        rewrite <- (Nat.add_0_r (length (storages σ))).
        rewrite lookup_new_storage. eauto.
      - subst o. right. eauto. }
    split; [done|]. split; [|done].
    unfold data_of, mid. simpl. rewrite lookup_mid_ex, Hex. simpl.
    rewrite lookup_new_storage. eauto.
  - exists attrs, lr, lf.
    split; [by apply lookup_mid_old|]. split; [done|].
    split.
    { destruct Hlr as [[dr Hdr]|[items Hitems]].
      - left. exists dr. by apply data_of_mid_old.
      - right. exists items. by apply lookup_mid_old. }
    split; [done|]. split; [|done].
    destruct Hlf as [d' Hd']. exists d'. by apply data_of_mid_old.
  - unfold id_of. by rewrite attr_mid_new, Hid.
  - done.
Qed.

Lemma evaluated_solution_copies_witness :
  ∃ c σ',
    _get_copy 1%nat evaluated = (Ok c, σ') ∧
    copyable σ' c ∧ copyable σ' 1%nat ∧
    id_of σ' c = Some (id_ evaluated) ∧ id_ σ' = id_ evaluated + 1.
Proof.
  apply (evaluated_solution_copies evaluated 1%nat).
  exists (<["fit" := VRef 2%nat]> (init_attrs 0 (VRef 0%nat))), 0%nat, 2%nat.
  split; [done|]. split; [done|]. split; [right; by eexists|].
  split; [done|]. split; [by eexists|done].
Defined.

(** X7: a copy that returns has the length of the original: [len] of the
    copy answers as [len] of the original did, value for value and error
    for error. *)
Theorem copy_has_the_same_length σ s c σ' depth :
  _get_copy s σ = (Ok c, σ') →
  (__len__ depth c σ').1 = (__len__ depth s σ).1.
Proof.
  intros H.
  apply _get_copy_Ok in H
    as (attrs & lr & o & ac & ex & sts & Hs & Hr & -> & -> & Hcopied
        & _ & Hrepr & _).
  rewrite (__len___run _ _ _ _ _ Hs Hr).
  erewrite __len___run; [|apply lookup_mid_new|exact Hrepr].
  unfold repr_copied in Hcopied.
  destruct depth; simpl; unfold deref; rewrite !bind_run; unfold mid; simpl;
    rewrite lookup_mid_dup;
    destruct (heap σ !! lr) as [[t|items|]|]; try done;
    try (destruct Hcopied as (d & _ & -> & _); simpl;
         by destruct (t_shape t));
    by subst o.
Qed.

Lemma copy_has_the_same_length_witness :
  (__len__ recursion_limit 4%nat (_get_copy 1%nat evaluated).2).1
  = (__len__ recursion_limit 1%nat evaluated).1.
Proof.
  apply (copy_has_the_same_length evaluated 1%nat 4%nat).
  vm_compute. reflexivity.
Defined.

(** X8: in every state a program reaches without assigning [_id],
    whatever constructions, copies (failed ones included), length queries
    and mutations it has run: every solution has an [_id] below the
    counter, a solution built later has a larger [_id], and no two
    solutions share one. *)
Theorem ids_identify_solutions σ :
  reachable σ →
  (∀ l attrs, heap σ !! l = Some (OSolution attrs) →
     ∃ i, id_of σ l = Some i ∧ i < id_ σ) ∧
  (∀ l1 l2 i1 i2,
     id_of σ l1 = Some i1 → id_of σ l2 = Some i2 →
     (l1 < l2)%nat → i1 < i2) ∧
  (∀ l1 l2 i, id_of σ l1 = Some i → id_of σ l2 = Some i → l1 = l2).
Proof.
  intros Hreach. apply ids_ok_reachable in Hreach as [Hb Hi].
  assert (∀ l i, id_of σ l = Some i → sid (heap σ) l = Some (Some (VInt i)))
    as Hsid.
  { intros l i. unfold id_of, attr, sid.
    destruct (heap σ !! l) as [[| |attrs]|]; try done.
    destruct (attrs !! "_id") as [[| |z| |]|]; try done. by intros [= ->]. }
  assert (∀ l1 l2 i1 i2,
     id_of σ l1 = Some i1 → id_of σ l2 = Some i2 →
     (l1 < l2)%nat → i1 < i2) as Hord.
  { intros l1 l2 i1 i2 H1 H2 Hlt.
    apply (Hi l1 l2 i1 i2 Hlt); by apply Hsid. }
  split; [|split; [done|]].
  - intros l attrs Hl. specialize (Hb l). unfold sid in Hb. rewrite Hl in Hb.
    destruct (Hb _ eq_refl) as (i & Hid & ?). exists i.
    split; [|done]. unfold id_of, attr. by rewrite Hl, Hid.
  - intros l1 l2 i H1 H2.
    destruct (Nat.lt_trichotomy l1 l2) as [Hlt|[->|Hlt]]; [|done|].
    + pose proof (Hord _ _ _ _ H1 H2 Hlt). lia.
    + pose proof (Hord _ _ _ _ H2 H1 Hlt). lia.
Qed.

Lemma ids_identify_solutions_witness :
  let σ := run [ANewList [VInt 1; VInt 2]; ANew (VRef 0%nat);
                ACopy 1%nat; ANew (VRef 0%nat)] initial in
  (∀ l attrs, heap σ !! l = Some (OSolution attrs) →
     ∃ i, id_of σ l = Some i ∧ i < id_ σ) ∧
  (∀ l1 l2 i1 i2,
     id_of σ l1 = Some i1 → id_of σ l2 = Some i2 →
     (l1 < l2)%nat → i1 < i2) ∧
  (∀ l1 l2 i, id_of σ l1 = Some i → id_of σ l2 = Some i → l1 = l2).
Proof.
  apply ids_identify_solutions.
  eexists. split; [|reflexivity]. repeat constructor; done.
Defined.

(** X9: [len] reads and never writes: whatever it returns or raises, the
    store, the storages and the counter are as they were. *)
Theorem len_is_read_only depth s σ : (__len__ depth s σ).2 = σ.
Proof.
  unfold __len__. rewrite bind_run, getattr_run.
  destruct (heap σ !! s) as [[| |attrs]|]; try done.
  destruct (attrs !! "repr_"); [apply py_len_state|done].
Qed.

Lemma Tensor_setitem_heap l i x σ : heap (Tensor_setitem l i x σ).2 = heap σ.
Proof.
  rewrite Tensor_setitem_run.
  destruct (heap σ !! l) as [[t| |]|]; try done.
  destruct (storages σ !! t_storage t); [|done]. by case_decide.
Qed.

(** A write through a tensor of the old store does not show through a
    tensor whose storage was allocated since. *)
Lemma Tensor_setitem_old_new σ o ex i ac sts l l' t' j n x :
  is_Some (data_of σ l) →
  heap (mid (heap σ) o ex (storages σ) i ac sts) !! l'
    = Some (OTensor t') →
  t_storage t' = (length (storages σ) + j)%nat →
  data_of (Tensor_setitem l n x (mid (heap σ) o ex (storages σ) i ac sts)).2 l'
  = data_of (mid (heap σ) o ex (storages σ) i ac sts) l'.
Proof.
  intros Hl Hl' Hst. unfold data_of in Hl.
  destruct (heap σ !! l) as [[t| |]|] eqn:Hlσ; try by destruct Hl.
  destruct Hl as [d Hd].
  eapply Tensor_setitem_other; [by apply lookup_mid_old|exact Hl'|].
  apply lookup_lt_Some in Hd. lia.
Qed.

(** X10: the tensors of a copy that returns share no storage with any
    tensor there was before the call: a write through any tensor of the old
    store, the original's or a view of it, shows neither through the
    representation of the copy nor through its fitness. *)
Theorem copy_shares_no_storage σ s c σ' l :
  _get_copy s σ = (Ok c, σ') →
  is_Some (data_of σ l) →
  (∀ lr', attr σ' c "repr_" = Some (VRef lr') →
     ∀ i x, data_of (Tensor_setitem l i x σ').2 lr' = data_of σ' lr') ∧
  (∀ lf lf',
     attr σ s "fit" = Some (VRef lf) → is_Some (data_of σ lf) →
     attr σ' c "fit" = Some (VRef lf') →
     ∀ i x, data_of (Tensor_setitem l i x σ').2 lf' = data_of σ' lf').
Proof.
  intros H Hl.
  apply _get_copy_Ok in H
    as (attrs & lr & o & ac & ex & sts & Hs & Hr & -> & -> & Hcopied
        & _ & Hrepr & _ & _ & _ & _ & _ & _ & Hfit).
  split.
  - intros lr'. rewrite attr_mid_new, Hrepr. intros [= <-] i x.
    unfold repr_copied in Hcopied.
    destruct (heap σ !! lr) as [[t|items|]|]; try done.
    + destruct Hcopied as (d & _ & -> & _).
      apply (Tensor_setitem_old_new _ _ _ _ _ _ _ _
               (Tensor (t_dtype t) (t_shape t) (length (storages σ))) 0%nat);
        [done|apply lookup_mid_dup|simpl; lia].
    + subst o. unfold data_of. rewrite Tensor_setitem_heap.
      unfold mid. simpl. by rewrite lookup_mid_dup.
  - intros lf lf' Hf Hlf. unfold attr in Hf. rewrite Hs in Hf.
    unfold data_of in Hlf.
    destruct (heap σ !! lf) as [[t| |]|] eqn:Ht; try by destruct Hlf.
    destruct Hlf as [d Hd].
    destruct (Hfit lf t d Hf Ht Hd) as (k & j & Hacfit & Hex & Hsts).
    rewrite attr_mid_new, Hacfit. intros [= <-] i x.
    apply (Tensor_setitem_old_new _ _ _ _ _ _ _ _
             (Tensor (t_dtype t) (t_shape t) (length (storages σ) + j)) j);
      [done| |done].
    unfold mid. simpl. by rewrite lookup_mid_ex.
Qed.

Lemma copy_shares_no_storage_witness :
  (∀ lr', attr (_get_copy 1%nat evaluated_with_view).2 5%nat "repr_"
          = Some (VRef lr') →
     ∀ i x, data_of (Tensor_setitem 3%nat i x
                       (_get_copy 1%nat evaluated_with_view).2).2 lr'
            = data_of (_get_copy 1%nat evaluated_with_view).2 lr') ∧
  (∀ lf lf',
     attr evaluated_with_view 1%nat "fit" = Some (VRef lf) →
     is_Some (data_of evaluated_with_view lf) →
     attr (_get_copy 1%nat evaluated_with_view).2 5%nat "fit"
       = Some (VRef lf') →
     ∀ i x, data_of (Tensor_setitem 3%nat i x
                       (_get_copy 1%nat evaluated_with_view).2).2 lf'
            = data_of (_get_copy 1%nat evaluated_with_view).2 lf').
Proof.
  apply (copy_shares_no_storage evaluated_with_view 1%nat 5%nat).
  - vm_compute. reflexivity.
  - by eexists.
Defined.

(** A write through the view shows through the original and not through
    the copy. *)
Example write_through_view :
  let σ' := (_get_copy 1%nat evaluated_with_view).2 in
  let σ'' := (Tensor_setitem 3%nat 0 99 σ').2 in
  data_of σ'' 0%nat = Some [99; 20; 30] ∧
  data_of σ'' 3%nat = Some [99; 20; 30] ∧
  data_of σ'' 4%nat = Some [10; 20; 30].
Proof. by vm_compute. Qed.
